(** * dsp-cli: the Store and the Engine of the Data Structure Protocol

    A shallow embedding of [skills/data-structure-protocol/scripts/dsp-cli.py].

    - Text is a list of characters; a character is a code point below 256.
      The classes [isspace] and [is_linebreak] are Python's [str.isspace]
      and the line boundaries of [str.splitlines] on that range.
    - The [.dsp] directory is a finite map from names to nodes. A node is a
      file (its text) or an entity directory with the four members the code
      reads and writes: [description], [imports], [shared] and [exports].
      An export area maps names to recipient files or to sub-collection
      directories; a sub-collection holds files only, as the code never
      creates anything else there.
    - A name is one path component: uids are produced by [_gen_uid] and the
      model does not interpret separators, the empty name or dot names.
    - A mutation is a function from the directory to a result and the
      directory it leaves behind, so that a failure keeps the writes made
      before it. [_fail] is [Err] with the error kind; an uncaught
      [OSError] of the file system is [Err OSError]. *)

From Stdlib Require Import Ascii String.
From stdpp Require Import gmap list sorting.

Set Default Proof Using "Type".
Open Scope list_scope.

Abbreviation str := (list ascii).
Abbreviation lit := list_ascii_of_string.

(** ** Characters and Python's string methods *)

Section Text.

(** [str.isspace] on one character. *)
Definition isspace (c : ascii) : bool :=
  let n := nat_of_ascii c in
  ((9 <=? n) && (n <=? 13)) || ((28 <=? n) && (n <=? 32))
  || (n =? 133) || (n =? 160).

(** The line boundaries of [str.splitlines]. *)
Definition is_linebreak (c : ascii) : bool :=
  let n := nat_of_ascii c in
  ((10 <=? n) && (n <=? 13)) || ((28 <=? n) && (n <=? 30)) || (n =? 133).

Definition LF : ascii := ascii_of_nat 10.
Definition CR : ascii := ascii_of_nat 13.

Fixpoint lstrip (s : str) : str :=
  match s with
  | [] => []
  | c :: s' => if isspace c then lstrip s' else s
  end.

Definition rstrip (s : str) : str := rev (lstrip (rev s)).

Definition strip (s : str) : str := rstrip (lstrip s).

(** [s.splitlines()]: [cur] is the current line, reversed. *)
Fixpoint splitlines_go (cur : str) (s : str) : list str :=
  match s with
  | [] => match cur with [] => [] | _ => [rev cur] end
  | c :: s' =>
      if is_linebreak c then
        rev cur ::
          match s' with
          | d :: s'' =>
              if decide (c = CR /\ d = LF) then splitlines_go [] s''
              else splitlines_go [] s'
          | [] => splitlines_go [] s'
          end
      else splitlines_go (c :: cur) s'
  end.

Definition splitlines (s : str) : list str := splitlines_go [] s.

(** [s.split()]: maximal runs of non-space characters. *)
Fixpoint split_go (cur : str) (s : str) : list str :=
  match s with
  | [] => match cur with [] => [] | _ => [rev cur] end
  | c :: s' =>
      if isspace c then
        match cur with
        | [] => split_go [] s'
        | _ => rev cur :: split_go [] s'
        end
      else split_go (c :: cur) s'
  end.

Definition split (s : str) : list str := split_go [] s.

(** ["\n".join(lines)] *)
Fixpoint join_lines (lines : list str) : str :=
  match lines with
  | [] => []
  | [l] => l
  | l :: rest => l ++ LF :: join_lines rest
  end.

Fixpoint startswith (s p : str) : bool :=
  match p, s with
  | [], _ => true
  | _ :: _, [] => false
  | a :: p', b :: s' => if decide (a = b) then startswith s' p' else false
  end.

(** Truth value of a string, and of an optional string. *)
Definition truthy (s : str) : bool :=
  match s with [] => false | _ => true end.

Definition opt_truthy (o : option str) : bool :=
  match o with Some s => truthy s | None => false end.

End Text.

Example splitlines_ex :
  splitlines (lit "a" ++ [CR; LF] ++ lit "b" ++ [LF; LF] ++ lit " c ")
  = [lit "a"; lit "b"; []; lit " c "].
Proof. vm_compute. reflexivity. Qed.

Example split_ex : split (lit "  obj-1   via=obj-2 ") = [lit "obj-1"; lit "via=obj-2"].
Proof. vm_compute. reflexivity. Qed.

Example strip_ex : strip (lit "  a b " ++ [LF]) = lit "a b".
Proof. vm_compute. reflexivity. Qed.

(** ** Record codec: line lists, import lines, descriptions *)

(** A Python [dict] from field names to texts: keys are unique and keep
    their insertion order. *)
Abbreviation dict := (list (str * str)).

Section Codec.

Definition DESC_FILE : str := lit "description".
Definition TOC_BASE : str := lit "TOC".

(** [_parse_import_line] *)
Definition _parse_import_line (line : str) : str * option str :=
  match split line with
  | [] => ([], None)
  | uid :: rest =>
      (uid,
       fold_left
         (fun via p => if startswith p (lit "via=") then Some (drop 4 p) else via)
         rest None)
  end.

(** [_format_import_line] *)
Definition _format_import_line (uid : str) (via : option str) : str :=
  if opt_truthy via then uid ++ lit " via=" ++ default [] via else uid.

(** The list comprehension of [_read_lines], on the text of an existing file. *)
Definition lines_of_text (text : str) : list str :=
  map strip (filter (fun ln => truthy (strip ln) = true) (splitlines text)).

(** The text [_write_lines] writes. *)
Definition text_of_lines (lines : list str) : str :=
  join_lines lines ++ match lines with [] => [] | _ => [LF] end.

(** [_read_lines]: [None] is a path that does not exist. *)
Definition _read_lines (file : option str) : list str :=
  match file with
  | None => []
  | Some text => lines_of_text text
  end.

(** [_read_text] *)
Definition _read_text (file : option str) : str :=
  match file with
  | None => []
  | Some text => strip text
  end.

(** The text [_write_text] writes. *)
Definition text_written (text : str) : str := rstrip text ++ [LF].

Fixpoint dict_get (d : dict) (k : str) : option str :=
  match d with
  | [] => None
  | (k', v) :: d' => if decide (k' = k) then Some v else dict_get d' k
  end.

(** [d[k] = v] *)
Fixpoint dict_set (d : dict) (k v : str) : dict :=
  match d with
  | [] => [(k, v)]
  | (k', v') :: d' =>
      if decide (k' = k) then (k, v) :: d' else (k', v') :: dict_set d' k v
  end.


Definition is_key_char (c : ascii) : bool :=
  let n := nat_of_ascii c in
  ((97 <=? n) && (n <=? 122)) || (n =? 95).

Fixpoint span_key (s : str) : str * str :=
  match s with
  | [] => ([], [])
  | c :: s' =>
      if is_key_char c then let '(k, r) := span_key s' in (c :: k, r)
      else ([], s)
  end.

(** [_DESC_KEY_RE.match(raw)]: at the start of [raw], one or more of the
    characters a-z and underscore, a colon, at most one space character, and
    the rest of [raw] whatever it holds. The result is the two groups. *)
Definition desc_key_match (raw : str) : option (str * str) :=
  match span_key raw with
  | (c :: k, colon :: rest) =>
      if decide (colon = ":"%char) then
        Some (c :: k,
              match rest with
              | w :: rest' => if isspace w then rest' else rest
              | [] => []
              end)
      else None
  | _ => None
  end.

Definition _DESC_ORDERED : list str := [lit "source"; lit "kind"; lit "purpose"].

Definition flush_key (result : dict) (cur_key : option str) (cur_lines : list str)
  : dict :=
  match cur_key with
  | Some k => dict_set result k (strip (join_lines cur_lines))
  | None => result
  end.

(** The loop of [_parse_desc] over the lines that are left. *)
Fixpoint parse_desc_go (raws : list str) (result : dict)
    (cur_key : option str) (cur_lines : list str) : dict :=
  match raws with
  | [] => flush_key result cur_key cur_lines
  | raw :: raws' =>
      match desc_key_match raw with
      | Some (k, v) => parse_desc_go raws' (flush_key result cur_key cur_lines) (Some k) [v]
      | None =>
          match cur_key with
          | Some _ => parse_desc_go raws' result cur_key (cur_lines ++ [raw])
          | None => parse_desc_go raws' result cur_key cur_lines
          end
      end
  end.

Definition _parse_desc (text : str) : dict :=
  parse_desc_go (splitlines text) [] None [].

Definition desc_line (k v : str) : str := k ++ lit ": " ++ v.

Definition _serialize_desc (fields : dict) : str :=
  join_lines
    (omap (fun k => desc_line k <$> dict_get fields k) _DESC_ORDERED
     ++ map (fun kv => desc_line kv.1 kv.2)
          (filter (fun kv => kv.1 ∉ _DESC_ORDERED) fields)).

End Codec.

Example parse_import_ex :
  _parse_import_line (lit "obj-1 via=obj-2") = (lit "obj-1", Some (lit "obj-2")).
Proof. vm_compute. reflexivity. Qed.

Example parse_desc_ex :
  _parse_desc (lit "source: a.py" ++ LF :: lit "purpose: two" ++ LF :: lit " lines")
  = [(lit "source", lit "a.py"); (lit "purpose", lit "two" ++ LF :: lit " lines")].
Proof. vm_compute. reflexivity. Qed.

Example serialize_desc_ex :
  _serialize_desc [(lit "note", lit "n"); (lit "purpose", lit "p"); (lit "source", lit "s")]
  = lit "source: s" ++ LF :: lit "purpose: p" ++ LF :: lit "note: n".
Proof. vm_compute. reflexivity. Qed.

(** ** The store: the [.dsp] directory *)

(** An entry of an export area: the reason file of a direct recipient, or
    the sub-collection of a shared uid (its [description] and the reason
    files of its recipients). *)
Inductive exp_entry :=
  | ExpFile (text : str)
  | ExpDir (files : gmap str str).

(** An entity directory. [None] is a member that does not exist. *)
Record entity := Entity {
  e_desc : option str;
  e_imports : option str;
  e_shared : option str;
  e_exports : option (gmap str exp_entry)
}.

Inductive node :=
  | File (text : str)
  | Dir (e : entity).

Abbreviation base := (gmap str node).

Inductive member := MDesc | MImports | MShared.

(** The paths the code builds below [.dsp]. *)
Inductive path :=
  | PTop (name : str)               (* base / name *)
  | PMember (uid : str) (m : member)   (* base / uid / description, imports, shared *)
  | PExports (uid : str)            (* base / uid / exports *)
  | PExport (uid name : str)        (* base / uid / exports / name *)
  | PSub (uid sub name : str).      (* base / uid / exports / sub / name *)

Inductive kind := KFile (text : str) | KDir.

Inductive error :=
  | StoreUninitialized
  | EntityNotFound (uid : str)
  | ReverseRecordNotFound
  | TocNotFound
  | OSError.

Inductive result (A : Type) :=
  | Ok (a : A)
  | Err (e : error).
Arguments Ok {A} a.
Arguments Err {A} e.

(** A computation on the directory: its result and the directory it leaves. *)
Definition M (A : Type) : Type := base -> result A * base.

Definition ret {A} (a : A) : M A := fun b => (Ok a, b).

Definition bind {A B} (m : M A) (f : A -> M B) : M B :=
  fun b =>
    match m b with
    | (Ok a, b') => f a b'
    | (Err e, b') => (Err e, b')
    end.

Definition fail {A} (e : error) : M A := fun b => (Err e, b).

Definition get {A} (f : base -> A) : M A := fun b => (Ok (f b), b).

Notation "x <- m ;; k" := (bind m (fun x => k))
  (at level 100, m at next level, right associativity).
Notation "m ;; k" := (bind m (fun _ => k))
  (at level 100, right associativity).

(** [for x in l: body x] *)
Fixpoint for_each {A} (l : list A) (body : A -> M unit) : M unit :=
  match l with
  | [] => ret tt
  | x :: l' => body x ;; for_each l' body
  end.

Definition when (c : bool) (m : M unit) : M unit := if c then m else ret tt.

Section Order.

(** Python's order on strings: lexicographic on code points. *)
Fixpoint str_leb (a b : str) : bool :=
  match a, b with
  | [], _ => true
  | _ :: _, [] => false
  | x :: a', y :: b' =>
      if nat_of_ascii x <? nat_of_ascii y then true
      else if nat_of_ascii x =? nat_of_ascii y then str_leb a' b'
      else false
  end.

Definition str_le (a b : str) : Prop := str_leb a b = true.

Global Instance str_le_dec : RelDecision str_le.
Proof. intros a b. unfold str_le. apply _. Defined.

(** [sorted(names)] *)
Definition sorted (l : list str) : list str := merge_sort str_le l.

End Order.

Section FileSystem.

Definition member_of (m : member) (e : entity) : option str :=
  match m with
  | MDesc => e_desc e
  | MImports => e_imports e
  | MShared => e_shared e
  end.

Definition set_member (m : member) (t : option str) (e : entity) : entity :=
  match m with
  | MDesc => Entity t (e_imports e) (e_shared e) (e_exports e)
  | MImports => Entity (e_desc e) t (e_shared e) (e_exports e)
  | MShared => Entity (e_desc e) (e_imports e) t (e_exports e)
  end.

Definition set_exports (x : option (gmap str exp_entry)) (e : entity) : entity :=
  Entity (e_desc e) (e_imports e) (e_shared e) x.

Definition empty_entity : entity := Entity None None None None.

Definition dir_at (b : base) (uid : str) : option entity :=
  match b !! uid with
  | Some (Dir e) => Some e
  | _ => None
  end.

(** [Store.exports_dir(uid)] when it is a directory. *)
Definition exports_at (b : base) (uid : str) : option (gmap str exp_entry) :=
  dir_at b uid ≫= e_exports.

(** What is at a path: nothing, a file or a directory. *)
Definition stat (b : base) (p : path) : option kind :=
  match p with
  | PTop name =>
      match b !! name with
      | Some (File t) => Some (KFile t)
      | Some (Dir _) => Some KDir
      | None => None
      end
  | PMember uid m => KFile <$> (dir_at b uid ≫= member_of m)
  | PExports uid => (fun _ => KDir) <$> exports_at b uid
  | PExport uid name =>
      match exports_at b uid ≫= (.!! name) with
      | Some (ExpFile t) => Some (KFile t)
      | Some (ExpDir _) => Some KDir
      | None => None
      end
  | PSub uid sub name =>
      match exports_at b uid ≫= (.!! sub) with
      | Some (ExpDir fs) => KFile <$> fs !! name
      | _ => None
      end
  end.

Definition exists_ (b : base) (p : path) : bool :=
  match stat b p with Some _ => true | None => false end.

Definition is_file (b : base) (p : path) : bool :=
  match stat b p with Some (KFile _) => true | _ => false end.

Definition is_dir (b : base) (p : path) : bool :=
  match stat b p with Some KDir => true | _ => false end.

(** The text of the file at a path, [None] when the path does not exist. *)
Definition file_at (b : base) (p : path) : option str :=
  match stat b p with Some (KFile t) => Some t | _ => None end.

(** Run [f] in the entity directory [uid], made first when it is missing
    ([mkdir(parents=True, exist_ok=True)] on the way to a member). *)
Definition in_entity (uid : str) (f : entity -> result unit * entity) : M unit :=
  fun b =>
    match b !! uid with
    | Some (File _) => (Err OSError, b)
    | Some (Dir e) => let '(r, e') := f e in (r, <[uid := Dir e']> b)
    | None => let '(r, e') := f empty_entity in (r, <[uid := Dir e']> b)
    end.

(** The same one level down, in the export area of an entity directory. *)
Definition in_exports (f : gmap str exp_entry -> result unit * gmap str exp_entry)
    (e : entity) : result unit * entity :=
  let '(r, x') := f (default ∅ (e_exports e)) in (r, set_exports (Some x') e).

(** [path.mkdir(parents=True, exist_ok=True)] for the directories the code
    makes this way. *)
Definition mkdir_p (p : path) : M unit :=
  match p with
  | PTop name => in_entity name (fun e => (Ok tt, e))
  | PExports uid => in_entity uid (in_exports (fun x => (Ok tt, x)))
  | PExport uid name =>
      in_entity uid (in_exports (fun x =>
        match x !! name with
        | Some (ExpFile _) => (Err OSError, x)
        | Some (ExpDir _) => (Ok tt, x)
        | None => (Ok tt, <[name := ExpDir ∅]> x)
        end))
  | _ => fail OSError
  end.

(** [path.parent.mkdir(parents=True, exist_ok=True)] followed by
    [path.write_text(text)]. *)
Definition write_file (p : path) (text : str) : M unit :=
  match p with
  | PTop name =>
      fun b =>
        match b !! name with
        | Some (Dir _) => (Err OSError, b)
        | _ => (Ok tt, <[name := File text]> b)
        end
  | PMember uid m => in_entity uid (fun e => (Ok tt, set_member m (Some text) e))
  | PExports uid => fail OSError
  | PExport uid name =>
      in_entity uid (in_exports (fun x =>
        match x !! name with
        | Some (ExpDir _) => (Err OSError, x)
        | _ => (Ok tt, <[name := ExpFile text]> x)
        end))
  | PSub uid sub name =>
      in_entity uid (in_exports (fun x =>
        match x !! sub with
        | Some (ExpFile _) => (Err OSError, x)
        | Some (ExpDir fs) => (Ok tt, <[sub := ExpDir (<[name := text]> fs)]> x)
        | None => (Ok tt, <[sub := ExpDir {[name := text]}]> x)
        end))
  end.

(** [path.unlink()] of an existing file. *)
Definition unlink (p : path) : M unit :=
  fun b =>
    match p with
    | PTop name => (Ok tt, delete name b)
    | PMember uid m =>
        (Ok tt, match dir_at b uid with
                | Some e => <[uid := Dir (set_member m None e)]> b
                | None => b
                end)
    | PExport uid name =>
        (Ok tt, match dir_at b uid with
                | Some e =>
                    <[uid := Dir (set_exports (delete name <$> e_exports e) e)]> b
                | None => b
                end)
    | PSub uid sub name =>
        (Ok tt, match dir_at b uid with
                | Some e =>
                    <[uid := Dir (set_exports
                       (alter (fun x => match x with
                                        | ExpDir fs => ExpDir (delete name fs)
                                        | _ => x
                                        end) sub <$> e_exports e) e)]> b
                | None => b
                end)
    | PExports _ => (Err OSError, b)
    end.

(** [shutil.rmtree(path)] of an existing directory. *)
Definition rmtree (p : path) : M unit :=
  fun b =>
    match p with
    | PTop name => (Ok tt, delete name b)
    | PExports uid =>
        (Ok tt, match dir_at b uid with
                | Some e => <[uid := Dir (set_exports None e)]> b
                | None => b
                end)
    | PExport uid name =>
        (Ok tt, match dir_at b uid with
                | Some e =>
                    <[uid := Dir (set_exports (delete name <$> e_exports e) e)]> b
                | None => b
                end)
    | _ => (Err OSError, b)
    end.

End FileSystem.

(** ** Low-level helpers on paths *)

Section Helpers.

Definition parent (p : path) : option path :=
  match p with
  | PTop _ => None
  | PMember uid _ => Some (PTop uid)
  | PExports uid => Some (PTop uid)
  | PExport uid _ => Some (PExports uid)
  | PSub uid sub _ => Some (PExport uid sub)
  end.

(** [path.parent.mkdir(parents=True, exist_ok=True)] *)
Definition mkdir_parent (p : path) : M unit :=
  match parent p with
  | Some q => mkdir_p q
  | None => ret tt
  end.

(** [_read_lines(path)]; reading a directory raises. *)
Definition _read_lines_at (p : path) : M (list str) :=
  fun b =>
    match stat b p with
    | Some KDir => (Err OSError, b)
    | Some (KFile t) => (Ok (lines_of_text t), b)
    | None => (Ok [], b)
    end.

Definition _write_lines (p : path) (lines : list str) : M unit :=
  write_file p (text_of_lines lines).

Definition _append_line_unique (p : path) (line : str) : M unit :=
  mkdir_parent p ;;
  existing <- _read_lines_at p ;;
  if decide (line ∈ existing) then ret tt
  else _write_lines p (existing ++ [line]).

Definition _remove_line_value (p : path) (target : str) : M bool :=
  lines <- _read_lines_at p ;;
  let new := filter (fun ln => ln ≠ target) lines in
  let changed := negb (length new =? length lines) in
  _write_lines p new ;;
  ret changed.

Definition _write_text (p : path) (text : str) : M unit :=
  write_file p (text_written text).

Definition _safe_unlink (p : path) : M unit :=
  fun b => if exists_ b p && is_file b p then unlink p b else (Ok tt, b).

Definition _safe_rmtree (p : path) : M unit :=
  fun b => if exists_ b p && is_dir b p then rmtree p b else (Ok tt, b).

(** [sorted(d.iterdir())] on a directory given as a map: its entries by name. *)
Definition listdir {A} (d : gmap str A) : list (str * A) :=
  omap (fun n => (fun x => (n, x)) <$> d !! n) (sorted (map fst (map_to_list d))).

End Helpers.

(** ** Store *)

Section Store.

Definition entity_exists (b : base) (uid : str) : bool := is_dir b (PTop uid).

Definition require_entity (uid : str) : M unit :=
  fun b => if entity_exists b uid then (Ok tt, b) else (Err (EntityNotFound uid), b).

Definition uid_prefix (name : str) : bool :=
  startswith name (lit "obj-") || startswith name (lit "func-").

Definition is_entity_dir (x : str * node) : bool :=
  match x.2 with
  | Dir _ => uid_prefix x.1
  | File _ => false
  end.

Definition all_uids (b : base) : list str :=
  sorted (map fst (filter (fun x => is_entity_dir x = true) (map_to_list b))).

Definition toc_path (root_uid : option str) : path :=
  if opt_truthy root_uid then PTop (TOC_BASE ++ lit "-" ++ default [] root_uid)
  else PTop TOC_BASE.

Definition is_toc_file (x : str * node) : bool :=
  match x.2 with
  | File _ => startswith x.1 TOC_BASE
  | Dir _ => false
  end.

(** [all_toc_paths]: the names of the TOC files. *)
Definition all_toc_paths (b : base) : list str :=
  sorted (map fst (filter (fun x => is_toc_file x = true) (map_to_list b))).

Definition read_desc (b : base) (uid : str) : dict :=
  _parse_desc (_read_text (file_at b (PMember uid MDesc))).

Definition write_desc (uid : str) (fields : dict) : M unit :=
  _write_text (PMember uid MDesc) (_serialize_desc fields).

Definition read_imports (b : base) (uid : str) : list (str * option str) :=
  map _parse_import_line
    (filter (fun ln => truthy ln = true) (_read_lines (file_at b (PMember uid MImports)))).

Definition read_import_uids (b : base) (uid : str) : list str :=
  map fst (filter (fun i => truthy i.1 = true) (read_imports b uid)).

Definition read_shared (b : base) (uid : str) : list str :=
  _read_lines (file_at b (PMember uid MShared)).

Definition direct_of (x : str * exp_entry) : option (str * str) :=
  match x.2 with
  | ExpFile t => Some (x.1, strip t)
  | ExpDir _ => None
  end.

Definition read_direct_recipients (b : base) (uid : str) : list (str * str) :=
  match exports_at b uid with
  | None => []
  | Some d => omap direct_of (listdir d)
  end.

(** The recipient files of a sub-collection: all but [description]. *)
Definition sub_recipients (files : gmap str str) : list (str * str) :=
  map (fun x => (x.1, strip x.2))
    (filter (fun x => x.1 ≠ DESC_FILE) (listdir files)).

End Store.

(** ** Engine: mutations *)

(** The project root: [None] when [.dsp] is not a directory. *)
Definition store : Type := option base.

Section EngineMutations.

(** [ensure_init] in front of the body of a mutation. *)
Definition ensure_init {A : Type} (body : M A) : store -> result A * store :=
  fun s =>
    match s with
    | None => (Err StoreUninitialized, None)
    | Some b => let '(r, b') := body b in (r, Some b')
    end.

(** [_gen_uid]; [hex8] is the eight hexadecimal digits drawn from [uuid4]. *)
Definition _gen_uid (kind : str) (hex8 : str) : str :=
  (if decide (kind = lit "function") then lit "func" else lit "obj")
  ++ lit "-" ++ hex8.

(** [(base / uid).mkdir(parents=True)]: the directory must be new. *)
Definition mkdir_new (uid : str) : M unit :=
  fun b =>
    match b !! uid with
    | Some _ => (Err OSError, b)
    | None => (Ok tt, <[uid := Dir empty_entity]> b)
    end.


Definition create_function (source purpose : str) (owner toc : option str)
    (hex8 : str) : store -> result str * store :=
  ensure_init (
    let uid := _gen_uid (lit "function") hex8 in
    mkdir_new uid ;;
    write_desc uid
      [(lit "source", source); (lit "kind", lit "function"); (lit "purpose", purpose)] ;;
    _write_lines (PMember uid MImports) [] ;;
    when (opt_truthy owner) (
      let o := default [] owner in
      require_entity o ;;
      _append_line_unique (PMember o MImports) uid ;;
      mkdir_p (PExports uid) ;;
      _write_text (PExport uid o) (lit "owner: method/member of this object")) ;;
    _append_line_unique (toc_path toc) uid ;;
    ret uid).



Definition add_import (importer imported why : str) (exporter : option str)
    : store -> result unit * store :=
  ensure_init (
    require_entity importer ;;
    let line := _format_import_line imported exporter in
    _append_line_unique (PMember importer MImports) line ;;
    if opt_truthy exporter then
      let e := default [] exporter in
      require_entity e ;;
      mkdir_p (PExport e imported) ;;
      _write_text (PSub e imported importer) why
    else
      require_entity imported ;;
      mkdir_p (PExports imported) ;;
      _write_text (PExport imported importer) why).


(** The reverse record of an edge, addressed by the arguments of a call. *)
Definition reverse_path (importer imported : str) (exporter : option str) : path :=
  if opt_truthy exporter then PSub (default [] exporter) imported importer
  else PExport imported importer.



(** The loop of [remove_import]: the lines that stay. *)
Fixpoint remove_first (imported : str) (exporter : option str)
    (imports : list (str * option str)) (removed : bool) : list str :=
  match imports with
  | [] => []
  | (imp_uid, imp_via) :: rest =>
      if bool_decide (imp_uid = imported) && negb removed
         && (bool_decide (exporter = None) || bool_decide (imp_via = exporter))
      then remove_first imported exporter rest true
      else _format_import_line imp_uid imp_via
           :: remove_first imported exporter rest removed
  end.

Definition remove_import (importer imported : str) (exporter : option str)
    : store -> result unit * store :=
  ensure_init (
    require_entity importer ;;
    imports <- get (fun b => read_imports b importer) ;;
    _write_lines (PMember importer MImports)
      (remove_first imported exporter imports false) ;;
    _safe_unlink (reverse_path importer imported exporter)).




(** The first loop of [remove_entity]. *)
Definition strip_mentions (uid other : str) : M unit :=
  when (bool_decide (other ≠ uid)) (
    imports <- get (fun b => read_imports b other) ;;
    when (bool_decide (Exists (fun i => i.1 = uid \/ i.2 = Some uid) imports)) (
      _write_lines (PMember other MImports)
        (map (fun i => _format_import_line i.1 i.2)
           (filter (fun i => i.1 ≠ uid /\ i.2 ≠ Some uid) imports)))).

(** The second loop: the reverse record of one edge of [uid]. *)
Definition drop_reverse (uid : str) (edge : str * option str) : M unit :=
  if opt_truthy edge.2 then _safe_unlink (PSub (default [] edge.2) edge.1 uid)
  else _safe_unlink (PExport edge.1 uid).

(** The third loop. *)
Definition unshare (uid other : str) : M unit :=
  when (bool_decide (other ≠ uid)) (
    shared <- get (fun b => read_shared b other) ;;
    when (bool_decide (uid ∈ shared)) (
      _remove_line_value (PMember other MShared) uid ;;
      _safe_rmtree (PExport other uid))).

Definition remove_entity (uid : str) : store -> result unit * store :=
  ensure_init (
    require_entity uid ;;
    all <- get all_uids ;;
    for_each all (strip_mentions uid) ;;
    own <- get (fun b => read_imports b uid) ;;
    for_each own (drop_reverse uid) ;;
    for_each all (unshare uid) ;;
    tocs <- get all_toc_paths ;;
    for_each tocs (fun toc => _remove_line_value (PTop toc) uid ;; ret tt) ;;
    _safe_rmtree (PTop uid)).

End EngineMutations.

(** ** Engine: queries *)

(** A node of the tree [get_children] and [get_parents] build; [t_why] is
    the reason [get_parents] attaches to a parent. *)
#[warnings="-register-all"]
Inductive tree :=
  Node (t_uid t_kind t_purpose : str) (t_children : list tree)
       (t_cycle : bool) (t_why : option str).


Section EngineQueries.

(** [ensure_init] in front of the body of a query. *)
Definition ensure_init_ro {A : Type} (body : base -> result A) : store -> result A :=
  fun s =>
    match s with
    | None => Err StoreUninitialized
    | Some b => body b
    end.

Definition checked {A : Type} (b : base) (uid : str) (r : result A) : result A :=
  if entity_exists b uid then r else Err (EntityNotFound uid).

(** [seen] and [result] of [_all_importers]. *)
Definition acc : Type := gset str * list (str * str).

Definition add_unseen (a : acc) (r : str * str) : acc :=
  if decide (r.1 ∈ a.1) then a else ({[r.1]} ∪ a.1, a.2 ++ [r]).

(** The second pass, for one [other]. *)
Definition shared_pass (b : base) (uid : str) (a : acc) (other : str) : acc :=
  if decide (uid ∈ read_shared b other) then
    match exports_at b other ≫= (.!! uid) with
    | Some (ExpDir fs) => fold_left add_unseen (sub_recipients fs) a
    | _ => a
    end
  else a.

(** The third pass, for one [other]. *)
Definition scan_pass (b : base) (uid : str) (a : acc) (other : str) : acc :=
  if decide (other ∈ a.1) then a
  else if bool_decide (Exists (fun i => i.1 = uid) (read_imports b other))
       then ({[other]} ∪ a.1, a.2 ++ [(other, [])])
       else a.

Definition _all_importers (b : base) (uid : str) : list (str * str) :=
  let a1 := fold_left add_unseen (read_direct_recipients b uid) (∅, []) in
  let a2 := fold_left (shared_pass b uid) (all_uids b) a1 in
  let a3 := fold_left (scan_pass b uid) (all_uids b) a2 in
  a3.2.



Definition desc_of (b : base) (u : str) : dict :=
  if entity_exists b u then read_desc b u else [].

Definition field (d : dict) (k : str) : str := default [] (dict_get d k).


(** [walk] of [get_children]; the set [visited] is threaded through. *)
Fixpoint walk_children (b : base) (d : nat) (u : str) (visited : gset str)
    : tree * gset str :=
  let desc := desc_of b u in
  let node cs c := Node u (field desc (lit "kind")) (field desc (lit "purpose")) cs c None in
  if decide (u ∈ visited) then (node [] true, visited)
  else
    let visited := {[u]} ∪ visited in
    match d with
    | O => (node [] false, visited)
    | S d' =>
        let '(cs, visited') :=
          fold_left
            (fun st i =>
               let '(c, v) := walk_children b d' i.1 st.2 in (st.1 ++ [c], v))
            (read_imports b u) ([], visited) in
        (node cs false, visited')
    end.

Definition get_children (uid : str) (depth : Z) : store -> result tree :=
  ensure_init_ro (fun b =>
    checked b uid (Ok (walk_children b (Z.to_nat depth) uid ∅).1)).



(** [neighbors] of [get_path], sorted. *)
Definition neighbors (b : base) (current : str) : list str :=
  sorted (elements (list_to_set (C := gset str)
    (map fst (read_imports b current) ++ map fst (_all_importers b current)))).

(** The loop over the sorted neighbours: the path when [to_uid] is met, or
    the queue and the visited set the loop leaves. *)
Fixpoint expand (b : base) (to_uid : str) (path : list str) (nbs : list str)
    (visited : gset str) (queue : list (str * list str))
    : list str + gset str * list (str * list str) :=
  match nbs with
  | [] => inr (visited, queue)
  | nb :: nbs' =>
      if decide (nb = to_uid) then inl (path ++ [nb])
      else if bool_decide (nb ∉ visited) && entity_exists b nb
           then expand b to_uid path nbs' ({[nb]} ∪ visited) (queue ++ [(nb, path ++ [nb])])
           else expand b to_uid path nbs' visited queue
  end.

(** The [while queue] loop; [None] when the fuel runs out. *)
Fixpoint bfs (fuel : nat) (b : base) (to_uid : str) (visited : gset str)
    (queue : list (str * list str)) : option (option (list str)) :=
  match fuel with
  | O => None
  | S fuel' =>
      match queue with
      | [] => Some None
      | (current, path) :: queue' =>
          match expand b to_uid path (neighbors b current) visited queue' with
          | inl p => Some (Some p)
          | inr (visited', queue'') => bfs fuel' b to_uid visited' queue''
          end
      end
  end.

(** Every turn of the loop takes one entry off the queue and an existing
    name enters the queue once, so the loop makes at most [size b] turns. *)
Definition bfs_fuel (b : base) : nat := S (size b).

Definition get_path (from_uid to_uid : str)
    : store -> option (result (option (list str))) :=
  fun s =>
    match s with
    | None => Some (Err StoreUninitialized)
    | Some b =>
        if negb (entity_exists b from_uid) then Some (Err (EntityNotFound from_uid))
        else if negb (entity_exists b to_uid) then Some (Err (EntityNotFound to_uid))
        else if decide (from_uid = to_uid) then Some (Ok (Some [from_uid]))
        else Ok <$> bfs (bfs_fuel b) b to_uid {[from_uid]} [(from_uid, [from_uid])]
    end.













End EngineQueries.

(** * Properties *)

(** ** Text *)

Section TextFacts.

Definition nospace (s : str) : Prop := Forall (fun c => isspace c = false) s.
Definition nobreak (s : str) : Prop := Forall (fun c => is_linebreak c = false) s.

(** A uid as the import list can hold it: not empty and free of spaces. *)
Definition token (s : str) : Prop := s ≠ [] /\ nospace s.

(** A line as [_read_lines] returns it. *)
Definition clean_line (s : str) : Prop := s ≠ [] /\ strip s = s /\ nobreak s.

Lemma linebreak_isspace c : is_linebreak c = true -> isspace c = true.
Proof.
  destruct c as [[] [] [] [] [] [] [] []]; vm_compute; congruence.
Qed.

Lemma nospace_nobreak s : nospace s -> nobreak s.
Proof.
  unfold nospace, nobreak. intros H. eapply Forall_impl; [exact H|]. intros c Hc. simpl in *.
  destruct (is_linebreak c) eqn:E; [|done].
  apply linebreak_isspace in E. congruence.
Qed.

Lemma LF_linebreak : is_linebreak LF = true.
Proof. reflexivity. Qed.

Lemma LF_isspace : isspace LF = true.
Proof. reflexivity. Qed.

Lemma lstrip_nospace_head c s : isspace c = false -> lstrip (c :: s) = c :: s.
Proof. intros H. simpl. by rewrite H. Qed.


Lemma lstrip_app_space s t :
  Forall (fun c => isspace c = true) s -> lstrip (s ++ t) = lstrip t.
Proof. induction 1 as [|c s Hc _ IH]; simpl; [done|]. by rewrite Hc. Qed.

Lemma lstrip_suffix s : exists p, s = p ++ lstrip s /\ Forall (fun c => isspace c = true) p.
Proof.
  induction s as [|c s [p [Hp Hs]]]; simpl.
  - by exists [].
  - destruct (isspace c) eqn:E.
    + exists (c :: p). split; [simpl; congruence|by constructor].
    + by exists [].
Qed.

Lemma lstrip_idem s : lstrip (lstrip s) = lstrip s.
Proof.
  induction s as [|c s IH]; simpl; [done|].
  destruct (isspace c) eqn:E; [done|]. simpl. by rewrite E.
Qed.

Lemma lstrip_nil_or_head s :
  lstrip s = [] \/ exists c r, lstrip s = c :: r /\ isspace c = false.
Proof.
  induction s as [|c s IH]; simpl; [by left|].
  destruct (isspace c) eqn:E; [done|]. right. by exists c, s.
Qed.

(** [lstrip] keeps what follows the first character that is not a space. *)
Lemma lstrip_app_keep s t :
  lstrip s ≠ [] -> lstrip (s ++ t) = lstrip s ++ t.
Proof.
  induction s as [|c s IH]; simpl; [done|].
  destruct (isspace c); [done|]. done.
Qed.


Lemma rstrip_snoc_keep s c : isspace c = false -> rstrip (s ++ [c]) = s ++ [c].
Proof.
  intros H. unfold rstrip. rewrite rev_app_distr. simpl. rewrite H.
  simpl. by rewrite rev_involutive.
Qed.

Lemma rstrip_nil : rstrip [] = [].
Proof. reflexivity. Qed.

Lemma rstrip_prefix s : exists q, s = rstrip s ++ q /\ Forall (fun c => isspace c = true) q.
Proof.
  unfold rstrip. destruct (lstrip_suffix (rev s)) as [p [Hp Hs]].
  exists (rev p). split; [|by apply Forall_rev].
  rewrite <- rev_app_distr, <- Hp. by rewrite rev_involutive.
Qed.

Lemma rstrip_idem s : rstrip (rstrip s) = rstrip s.
Proof. unfold rstrip. by rewrite rev_involutive, lstrip_idem. Qed.

(** [rstrip] does not touch a leading character that is not a space. *)
Lemma rstrip_cons_keep c s : isspace c = false -> rstrip (c :: s) = c :: rstrip s.
Proof.
  intros Hc. unfold rstrip. simpl.
  destruct (lstrip_nil_or_head (rev s)) as [E|[d [r [E Hd]]]].
  - rewrite E. simpl.
    destruct (lstrip_suffix (rev s)) as [p [Hp Hs]]. rewrite E, app_nil_r in Hp.
    rewrite lstrip_app_space by (by rewrite Hp). simpl. by rewrite Hc.
  - rewrite lstrip_app_keep by (by rewrite E). by rewrite rev_app_distr.
Qed.

Lemma strip_idem s : strip (strip s) = strip s.
Proof.
  unfold strip.
  destruct (lstrip_nil_or_head s) as [E|[c [r [E Hc]]]].
  - rewrite E. reflexivity.
  - rewrite E. rewrite rstrip_cons_keep by done.
    rewrite lstrip_nospace_head by done.
    rewrite <- rstrip_cons_keep by done. by rewrite rstrip_idem.
Qed.


Lemma strip_nospace_ends c s d :
  isspace c = false -> isspace d = false -> strip (c :: s ++ [d]) = c :: s ++ [d].
Proof.
  intros Hc Hd. unfold strip. rewrite lstrip_nospace_head by done.
  by apply (rstrip_snoc_keep (c :: s) d).
Qed.

Lemma strip_single c : isspace c = false -> strip [c] = [c].
Proof. intros Hc. unfold strip. simpl. rewrite Hc. unfold rstrip. simpl. by rewrite Hc. Qed.

(** A text whose first and last characters are not spaces is its own strip. *)
Lemma strip_ends s c d :
  head s = Some c -> last s = Some d ->
  isspace c = false -> isspace d = false -> strip s = s.
Proof.
  intros Hh Hl Hc Hd. destruct s as [|c' s]; [done|]. simpl in Hh. simplify_eq.
  destruct (decide (s = [])) as [->|Hs].
  - by apply strip_single.
  - destruct (exists_last Hs) as [s' [d' ->]].
    change (c :: s' ++ [d']) with ((c :: s') ++ [d']) in Hl.
    rewrite last_snoc in Hl. simplify_eq.
    by apply strip_nospace_ends.
Qed.

Lemma strip_nospace s : nospace s -> strip s = s.
Proof.
  intros H. destruct s as [|c s]; [done|].
  destruct (last (c :: s)) as [d|] eqn:E.
  - eapply strip_ends; eauto.
    + by inversion H.
    + apply last_Some_elem_of in E. unfold nospace in H.
      rewrite Forall_forall in H. by apply H.
  - by apply last_None in E.
Qed.

End TextFacts.

(** ** Line lists and import lines *)

Section LineFacts.

Lemma nobreak_lstrip s : nobreak s -> nobreak (lstrip s).
Proof.
  intros H. destruct (lstrip_suffix s) as [p [Hp _]]. unfold nobreak in *.
  rewrite Hp in H. by apply Forall_app in H as [_ H].
Qed.

Lemma nobreak_rstrip s : nobreak s -> nobreak (rstrip s).
Proof.
  intros H. destruct (rstrip_prefix s) as [p [Hp _]]. unfold nobreak in *.
  rewrite Hp in H. by apply Forall_app in H as [H _].
Qed.

Lemma nobreak_strip s : nobreak s -> nobreak (strip s).
Proof. intros H. by apply nobreak_rstrip, nobreak_lstrip. Qed.

Lemma stripped_head s :
  strip s = s -> s = [] \/ exists c r, s = c :: r /\ isspace c = false.
Proof.
  intros H. unfold strip in H.
  destruct (lstrip_nil_or_head s) as [E|[c [r [E Hc]]]].
  - rewrite E in H. left. by rewrite <- H.
  - rewrite E, rstrip_cons_keep in H by done. right. exists c, (rstrip r). by rewrite <- H.
Qed.

Lemma text_of_lines_cons l ls : text_of_lines (l :: ls) = l ++ LF :: text_of_lines ls.
Proof.
  unfold text_of_lines. destruct ls as [|l' ls]; simpl; [done|].
  by rewrite <- !app_assoc.
Qed.

Lemma splitlines_go_line cur l rest :
  nobreak l -> splitlines_go cur (l ++ LF :: rest) = (rev cur ++ l) :: splitlines_go [] rest.
Proof.
  intros H. revert cur. induction H as [|c l Hc _ IH]; intros cur; simpl.
  - rewrite app_nil_r. destruct rest as [|d rest]; [done|].
    done.
  - rewrite Hc, IH. simpl. by rewrite <- app_assoc.
Qed.

Lemma splitlines_text_of_lines ls :
  Forall nobreak ls -> splitlines (text_of_lines ls) = ls.
Proof.
  unfold splitlines. induction 1 as [|l ls Hl _ IH]; [done|].
  rewrite text_of_lines_cons, splitlines_go_line by done. simpl. by rewrite IH.
Qed.

Lemma splitlines_go_nobreak cur s :
  nobreak cur -> Forall nobreak (splitlines_go cur s).
Proof.
  revert cur. induction s as [s IH] using (induction_ltof1 _ (@length ascii)).
  unfold ltof in IH. intros cur Hcur. destruct s as [|c s]; simpl.
  - destruct cur; [constructor|]. constructor; [|constructor].
    by apply Forall_rev.
  - destruct (is_linebreak c) eqn:E.
    + constructor; [by apply Forall_rev|].
      destruct s as [|d s]; [constructor|].
      case_decide; apply IH; simpl; try lia; constructor.
    + apply IH; [simpl; lia|]. by constructor.
Qed.

(** The lines [_read_lines] returns are clean. *)
Lemma lines_of_text_clean t : Forall clean_line (lines_of_text t).
Proof.
  unfold lines_of_text. apply Forall_forall. intros l Hl.
  apply list_elem_of_fmap in Hl as [raw [-> Hraw]].
  apply list_elem_of_filter in Hraw as [Hne Hraw].
  split; [|split].
  - intros E. rewrite E in Hne. discriminate Hne.
  - apply strip_idem.
  - apply nobreak_strip.
    pose proof (splitlines_go_nobreak [] t ltac:(constructor)) as Hall.
    rewrite Forall_forall in Hall. by apply Hall.
Qed.

(** Clean lines survive [_write_lines] then [_read_lines]. *)
Lemma lines_of_text_of_lines ls :
  Forall clean_line ls -> lines_of_text (text_of_lines ls) = ls.
Proof.
  intros H. unfold lines_of_text.
  rewrite splitlines_text_of_lines.
  2: { eapply Forall_impl; [exact H|]. by intros l (_ & _ & Hb). }
  induction H as [|l ls (Hne & Hs & _) _ IH]; [done|].
  rewrite filter_cons. rewrite decide_True.
  2: { rewrite Hs. by destruct l. }
  simpl. f_equal; [exact Hs|exact IH].
Qed.


Lemma token_clean u : token u -> clean_line u.
Proof.
  intros [Hne Hs]. split; [done|]. split; [by apply strip_nospace|by apply nospace_nobreak].
Qed.

Lemma rev_nil_inv (l : str) : rev l = [] -> l = [].
Proof. intros E. by rewrite <- (rev_involutive l), E. Qed.

Lemma split_go_nonempty cur s : cur ≠ [] -> split_go cur s ≠ [].
Proof.
  revert cur. induction s as [|c s IH]; intros cur Hcur; simpl.
  - by destruct cur.
  - destruct (isspace c); [by destruct cur|]. by apply IH.
Qed.

Lemma split_go_tokens cur s : nospace cur -> Forall token (split_go cur s).
Proof.
  revert cur. induction s as [|c s IH]; intros cur Hcur; simpl.
  - destruct cur as [|x cur]; [constructor|]. constructor; [|constructor].
    split; [|by apply Forall_rev].
    intros E. by apply rev_nil_inv in E.
  - destruct (isspace c) eqn:E.
    + destruct cur as [|x cur]; [apply IH; constructor|].
      constructor; [|apply IH; constructor].
      split; [|by apply Forall_rev].
      intros E'. by apply rev_nil_inv in E'.
    + apply IH. by constructor.
Qed.

Lemma split_go_nospace cur u rest :
  nospace u -> split_go cur (u ++ rest) = split_go (rev u ++ cur) rest.
Proof.
  intros H. revert cur. induction H as [|c u Hc _ IH]; intros cur; simpl; [done|].
  rewrite Hc, IH. by rewrite <- app_assoc.
Qed.

Lemma split_token u : token u -> split u = [u].
Proof.
  intros [Hne Hs]. unfold split.
  rewrite <- (app_nil_r u) at 1. rewrite split_go_nospace by done.
  rewrite app_nil_r. simpl. destruct (rev u) eqn:E.
  - by apply rev_nil_inv in E.
  - by rewrite <- E, rev_involutive.
Qed.

Lemma split_token_space u c w :
  token u -> isspace c = true -> split (u ++ c :: w) = u :: split w.
Proof.
  intros [Hne Hs] Hc. unfold split.
  rewrite split_go_nospace by done. rewrite app_nil_r. simpl. rewrite Hc.
  destruct (rev u) eqn:E.
  - by apply rev_nil_inv in E.
  - by rewrite <- E, rev_involutive.
Qed.

(** An edge as [read_imports] returns it: the uid is a token and the
    exporter, when there is one, holds no space. *)
Definition edge_ok (i : str * option str) : Prop :=
  token i.1 /\ match i.2 with Some v => nospace v | None => True end.

(** The exporter as it reads back: an empty [via=] is no exporter. *)
Definition norm_via (v : option str) : option str :=
  if opt_truthy v then v else None.

Lemma via_fold_ok rest v0 :
  Forall token rest ->
  match v0 with Some v => nospace v | None => True end ->
  match fold_left
          (fun via p => if startswith p (lit "via=") then Some (drop 4 p) else via)
          rest v0 with
  | Some v => nospace v
  | None => True
  end.
Proof.
  intros H. revert v0. induction H as [|p rest [_ Hp] _ IH]; intros v0 Hv0; simpl; [done|].
  apply IH. destruct (startswith p _); [|exact Hv0]. by apply Forall_drop.
Qed.

Lemma parse_import_line_ok l : clean_line l -> edge_ok (_parse_import_line l).
Proof.
  intros (Hne & Hs & _). unfold _parse_import_line.
  destruct (stripped_head l Hs) as [->|[c [r [-> Hc]]]]; [by destruct Hne|].
  pose proof (split_go_tokens [] (c :: r) ltac:(constructor)) as Htok.
  fold (split (c :: r)) in Htok.
  destruct (split (c :: r)) as [|u rest] eqn:E.
  - unfold split in E. simpl in E. rewrite Hc in E.
    by apply split_go_nonempty in E.
  - inversion Htok; subst. split; [done|]. simpl. by apply via_fold_ok.
Qed.

Lemma format_import_line_clean i : edge_ok i -> clean_line (_format_import_line i.1 i.2).
Proof.
  destruct i as [u v]. intros [Hu Hv]. simpl in *.
  unfold _format_import_line. destruct (opt_truthy v) eqn:E; [|by apply token_clean].
  destruct v as [v|]; [|done]. simpl in *. destruct v as [|d v]; [done|].
  destruct Hu as [Hne Hu]. destruct u as [|c u]; [done|].
  inversion Hu; subst. split; [done|]. split.
  - destruct (last (c :: u ++ lit " via=" ++ d :: v)) as [x|] eqn:El.
    + eapply strip_ends; eauto.
      rewrite app_assoc, app_comm_cons, last_app in El.
      destruct (last (d :: v)) as [y|] eqn:Ey; [|by apply last_None in Ey].
      simplify_eq. apply last_Some_elem_of in Ey.
      unfold nospace in Hv. rewrite Forall_forall in Hv. by apply Hv.
    + by apply last_None in El.
  - apply nospace_nobreak in Hu. apply nospace_nobreak in Hv.
    unfold nobreak in *. apply Forall_app. split; [done|].
    simpl. by repeat (constructor; [reflexivity|]).
Qed.

Lemma parse_format_import_line i :
  edge_ok i -> _parse_import_line (_format_import_line i.1 i.2) = (i.1, norm_via i.2).
Proof.
  destruct i as [u v]. intros [Hu Hv]. simpl in *.
  unfold _format_import_line, norm_via, _parse_import_line.
  destruct (opt_truthy v) eqn:E.
  - destruct v as [v|]; [|done]. simpl in *. destruct v as [|d v]; [done|].
    rewrite split_token_space by done.
    rewrite (split_token ("v"%char :: "i"%char :: "a"%char :: "="%char :: d :: v)).
    + reflexivity.
    + split; [done|]. unfold nospace. simpl.
      by repeat (constructor; [reflexivity|]).
  - by rewrite split_token.
Qed.

End LineFacts.

(** ** The file system model *)

Section FileSystemFacts.

Lemma entity_exists_dir b uid :
  entity_exists b uid = true <-> exists e, b !! uid = Some (Dir e).
Proof.
  unfold entity_exists, is_dir, stat.
  destruct (b !! uid) as [[t|e]|]; split; try done; try (intros [e' ?]; done).
  intros _. by exists e.
Qed.


Lemma dir_at_Some b uid e : dir_at b uid = Some e <-> b !! uid = Some (Dir e).
Proof.
  unfold dir_at. destruct (b !! uid) as [[t|e']|]; split; intros; by simplify_eq.
Qed.

Lemma file_at_member b uid m : file_at b (PMember uid m) = dir_at b uid ≫= member_of m.
Proof.
  unfold file_at, stat. by destruct (dir_at b uid ≫= member_of m).
Qed.


Lemma member_of_set_ne m m' t e : m ≠ m' -> member_of m' (set_member m t e) = member_of m' e.
Proof. by destruct m, m'. Qed.

Lemma exports_set_member m t e : e_exports (set_member m t e) = e_exports e.
Proof. by destruct m. Qed.


Lemma require_entity_present {A : Type} b uid (k : M A) :
  entity_exists b uid = true -> (require_entity uid ;; k) b = k b.
Proof. intros H. unfold bind, require_entity. by rewrite H. Qed.

Lemma bind_get {A B : Type} (f : base -> A) (k : A -> M B) b : (x <- get f ;; k x) b = k (f b) b.
Proof. reflexivity. Qed.



(** Writing the lines of a member of an existing entity. *)
Lemma write_lines_member b uid m e lines :
  b !! uid = Some (Dir e) ->
  _write_lines (PMember uid m) lines b
  = (Ok tt, <[uid := Dir (set_member m (Some (text_of_lines lines)) e)]> b).
Proof. intros H. unfold _write_lines, write_file, in_entity. by rewrite H. Qed.

Lemma read_lines_at_member b uid m :
  _read_lines_at (PMember uid m) b = (Ok (_read_lines (file_at b (PMember uid m))), b).
Proof.
  unfold _read_lines_at. rewrite file_at_member. simpl.
  by destruct (dir_at b uid ≫= member_of m).
Qed.

Lemma read_lines_at_top b name :
  is_dir b (PTop name) = false ->
  _read_lines_at (PTop name) b = (Ok (_read_lines (file_at b (PTop name))), b).
Proof.
  unfold _read_lines_at, is_dir, file_at. by destruct (stat b (PTop name)) as [[]|].
Qed.



End FileSystemFacts.

(** ** Missing entities (C3) *)

Section MissingEntity.


(** The defect next to it: [add_import] appends the edge before it checks
    the imported entity, so the failure leaves the edge behind. *)
Example add_import_missing_imported_writes :
  let b : base := {[ lit "obj-a" := Dir (Entity None (Some []) None None) ]} in
  exists b', add_import (lit "obj-a") (lit "obj-b") (lit "why") None (Some b)
             = (Err (EntityNotFound (lit "obj-b")), Some b')
          /\ read_imports b' (lit "obj-a") = [(lit "obj-b", None)]
          /\ read_imports b (lit "obj-a") = [].
Proof. eexists. split; [reflexivity|]. split; vm_compute; reflexivity. Qed.



End MissingEntity.

(** ** Deletion primitives on absent targets (C9) *)

Section DeletionPrimitives.










End DeletionPrimitives.

(** ** removeImport (C8) *)

Section RemoveImport.

(** What [remove_import] writes when no edge matches: every line again. *)
Lemma remove_first_removed imported exporter imports :
  remove_first imported exporter imports true
  = map (fun i => _format_import_line i.1 i.2) imports.
Proof.
  induction imports as [|[u v] imports IH]; simpl; [done|].
  rewrite andb_false_r. simpl. by rewrite IH.
Qed.

(** The loop drops the first edge that matches and no other. *)
Lemma remove_first_spec imported exporter imports :
  let matches (i : str * option str) :=
    i.1 = imported /\ (exporter = None \/ i.2 = exporter) in
  (Forall (fun i => ¬ matches i) imports
   /\ remove_first imported exporter imports false
      = map (fun i => _format_import_line i.1 i.2) imports)
  \/ (exists pre i post,
        imports = pre ++ i :: post
        /\ Forall (fun i => ¬ matches i) pre /\ matches i
        /\ remove_first imported exporter imports false
           = map (fun i => _format_import_line i.1 i.2) (pre ++ post)).
Proof.
  intros matches. induction imports as [|[u v] imports IH]; simpl.
  - left. by split.
  - destruct (bool_decide (u = imported) && true
              && (bool_decide (exporter = None) || bool_decide (v = exporter))) eqn:E.
    + right. exists [], (u, v), imports. split; [done|]. split; [constructor|].
      rewrite remove_first_removed. split; [|reflexivity].
      apply andb_prop in E as [E1 E2]. apply andb_prop in E1 as [E1 _].
      apply bool_decide_eq_true in E1. apply orb_prop in E2.
      split; [exact E1|]. simpl.
      destruct E2 as [E2|E2]; apply bool_decide_eq_true in E2; auto.
    + assert (Hno : ¬ matches (u, v)).
      { intros [H1 H2]. simpl in *. subst u.
        rewrite bool_decide_eq_true_2 in E by done. simpl in E.
        apply orb_false_elim in E as [E1 E2].
        apply bool_decide_eq_false in E1, E2. destruct H2; done. }
      destruct IH as [[Hall Heq]|(pre & i & post & Himp & Hpre & Hi & Heq)].
      * left. split; [by constructor|]. by rewrite Heq.
      * right. exists ((u, v) :: pre), i, post. rewrite Himp.
        split; [done|]. split; [by constructor|]. split; [done|].
        simpl. rewrite <- Heq, Himp. done.
Qed.

(** C8: the code misses the claim. Without an exporter the loop removes the
    first edge to [imported] whatever its [via], but the reverse record it
    deletes is the direct one. Here the only edge goes through [obj-e]: the
    edge is removed and its reverse record under [obj-e] stays. *)
Theorem remove_import_keeps_reverse_record :
  let dir := Dir (Entity None (Some []) (Some []) None) in
  let b0 : base :=
    {[ lit "obj-i" := dir; lit "obj-m" := dir; lit "obj-e" := dir ]} in
  let r1 := add_import (lit "obj-i") (lit "obj-m") (lit "why") (Some (lit "obj-e")) (Some b0) in
  let b1 := default ∅ r1.2 in
  let r2 := remove_import (lit "obj-i") (lit "obj-m") None (Some b1) in
  let b2 := default ∅ r2.2 in
  r1.1 = Ok tt
  /\ read_imports b1 (lit "obj-i") = [(lit "obj-m", Some (lit "obj-e"))]
  /\ file_at b1 (PSub (lit "obj-e") (lit "obj-m") (lit "obj-i")) = Some (lit "why" ++ [LF])
  /\ r2.1 = Ok tt
  /\ read_imports b2 (lit "obj-i") = []
  /\ file_at b2 (PSub (lit "obj-e") (lit "obj-m") (lit "obj-i")) = Some (lit "why" ++ [LF]).
Proof. vm_compute. repeat split. Qed.

End RemoveImport.

(** ** Footprints *)

Section Footprint.

(** [m] changes no top-level name outside [K]. *)
Definition touches {A : Type} (K : str -> Prop) (m : M A) : Prop :=
  forall b k, ¬ K k -> (m b).2 !! k = b !! k.

Lemma touches_ret {A : Type} (K : str -> Prop) (a : A) : touches K (ret a).
Proof. by intros b k _. Qed.


Lemma touches_fail {A : Type} (K : str -> Prop) e : touches K (@fail A e).
Proof. by intros b k _. Qed.

Lemma touches_bind {A B : Type} (K : str -> Prop) (m : M A) (f : A -> M B) :
  touches K m -> (forall a, touches K (f a)) -> touches K (bind m f).
Proof.
  intros Hm Hf b k Hk. unfold bind. specialize (Hm b k Hk).
  destruct (m b) as [[a|e] b']; simpl in *; [|done].
  by rewrite (Hf a b' k Hk).
Qed.


Lemma touches_when (K : str -> Prop) c (m : M unit) : touches K m -> touches K (when c m).
Proof. intros H. destruct c; [done|apply touches_ret]. Qed.


Lemma touches_weaken {A : Type} (K K' : str -> Prop) (m : M A) :
  (forall k, K k -> K' k) -> touches K m -> touches K' m.
Proof. intros H Hm b k Hk. apply Hm. auto. Qed.

Lemma touches_in_entity uid f : touches (fun k => k = uid) (in_entity uid f).
Proof.
  intros b k Hk. unfold in_entity.
  destruct (b !! uid) as [[t|e]|]; [done| |];
    destruct (f _) as [r e']; simpl; by rewrite lookup_insert_ne.
Qed.

(** The name at the top of a path. *)
Definition top_of (p : path) : str :=
  match p with
  | PTop name => name
  | PMember uid _ => uid
  | PExports uid => uid
  | PExport uid _ => uid
  | PSub uid _ _ => uid
  end.


Lemma touches_write_file p text : touches (fun k => k = top_of p) (write_file p text).
Proof.
  destruct p; simpl; try apply touches_in_entity; try apply touches_fail.
  intros b k Hk. destruct (b !! name) as [[t|e]|]; simpl; try done;
    by rewrite lookup_insert_ne.
Qed.


Lemma touches_read_lines_at (K : str -> Prop) p : touches K (_read_lines_at p).
Proof. intros b k _. unfold _read_lines_at. by destruct (stat b p) as [[]|]. Qed.

Lemma touches_write_lines p lines : touches (fun k => k = top_of p) (_write_lines p lines).
Proof. apply touches_write_file. Qed.



Lemma touches_remove_line_value p target :
  touches (fun k => k = top_of p) (_remove_line_value p target).
Proof.
  unfold _remove_line_value.
  apply touches_bind; [apply touches_read_lines_at|]. intros lines.
  apply touches_bind; [apply touches_write_lines|]. intros _. apply touches_ret.
Qed.

Lemma touches_unlink p : touches (fun k => k = top_of p) (unlink p).
Proof.
  intros b k Hk. destruct p; simpl in *; try done;
    try (destruct (dir_at b uid); [by rewrite lookup_insert_ne|done]).
  by rewrite lookup_delete_ne.
Qed.

Lemma touches_rmtree p : touches (fun k => k = top_of p) (rmtree p).
Proof.
  intros b k Hk. destruct p; simpl in *; try done;
    try (destruct (dir_at b uid); [by rewrite lookup_insert_ne|done]).
  by rewrite lookup_delete_ne.
Qed.

Lemma touches_safe_unlink p : touches (fun k => k = top_of p) (_safe_unlink p).
Proof.
  intros b k Hk. unfold _safe_unlink.
  destruct (exists_ b p && is_file b p); [by apply touches_unlink|done].
Qed.

Lemma touches_safe_rmtree p : touches (fun k => k = top_of p) (_safe_rmtree p).
Proof.
  intros b k Hk. unfold _safe_rmtree.
  destruct (exists_ b p && is_dir b p); [by apply touches_rmtree|done].
Qed.

End Footprint.

(** ** Orphans and shared declarations (C10) *)

Section Orphans.

Lemma elem_of_sorted (x : str) (l : list str) : x ∈ sorted l <-> x ∈ l.
Proof. unfold sorted. by rewrite merge_sort_Permutation. Qed.

Lemma elem_of_all_uids b uid :
  uid ∈ all_uids b <-> (exists e, b !! uid = Some (Dir e)) /\ uid_prefix uid = true.
Proof.
  unfold all_uids. rewrite elem_of_sorted, list_elem_of_fmap. split.
  - intros [[k n] [-> H]]. apply list_elem_of_filter in H as [Hd H].
    apply elem_of_map_to_list in H. unfold is_entity_dir in Hd. simpl in *.
    destruct n as [t|e]; [done|]. split; [by exists e|done].
  - intros [[e He] Hp]. exists (uid, Dir e). split; [done|].
    apply list_elem_of_filter. split; [done|]. by apply elem_of_map_to_list.
Qed.

Lemma all_uids_exist b uid : uid ∈ all_uids b -> entity_exists b uid = true.
Proof. intros [H _]%elem_of_all_uids. by apply entity_exists_dir. Qed.

Lemma elem_of_all_toc_paths b toc :
  toc ∈ all_toc_paths b
  <-> (exists t, b !! toc = Some (File t)) /\ startswith toc TOC_BASE = true.
Proof.
  unfold all_toc_paths. rewrite elem_of_sorted, list_elem_of_fmap. split.
  - intros [[k n] [-> H]]. apply list_elem_of_filter in H as [Hd H].
    apply elem_of_map_to_list in H. unfold is_toc_file in Hd. simpl in *.
    destruct n as [t|e]; [|done]. split; [by exists t|done].
  - intros [[t He] Hp]. exists (toc, File t). split; [done|].
    apply list_elem_of_filter. split; [done|]. by apply elem_of_map_to_list.
Qed.








End Orphans.

(** ** Tree traversal (C7) *)


Definition t_uid (t : tree) : str := match t with Node u _ _ _ _ _ => u end.
Definition t_children (t : tree) : list tree := match t with Node _ _ _ cs _ _ => cs end.
Definition t_cycle (t : tree) : bool := match t with Node _ _ _ _ c _ => c end.



Section Traversal.












(** The store with the two edges A -> B -> A. *)
Definition two_cycle : base :=
  {[ lit "obj-a" := Dir (Entity None (Some (lit "obj-b" ++ [LF])) None None);
     lit "obj-b" := Dir (Entity None (Some (lit "obj-a" ++ [LF])) None None) ]}.

Example get_children_two_cycle :
  get_children (lit "obj-a") 5 (Some two_cycle)
  = Ok (Node (lit "obj-a") [] []
          [Node (lit "obj-b") [] []
             [Node (lit "obj-a") [] [] [] true None] false None]
          false None).
Proof. vm_compute. reflexivity. Qed.



End Traversal.

(** ** Cycle detection (C5) *)

(** [chain b l]: each uid of [l] imports the next one. *)
Fixpoint chain (b : base) (l : list str) : Prop :=
  match l with
  | x :: l' =>
      match l' with
      | y :: _ => y ∈ read_import_uids b x /\ chain b l'
      | [] => True
      end
  | [] => True
  end.




Section CycleDetection.

Context (b : base).

Lemma chain_cons x l :
  chain b (x :: l) <-> (forall y, head l = Some y -> y ∈ read_import_uids b x) /\ chain b l.
Proof.
  destruct l as [|y l]; simpl.
  - split; [intros _; split; [done|done]|done].
  - split.
    + intros [H1 H2]. split; [|done]. by intros ? [= <-].
    + intros [H1 H2]. split; [|done]. by apply H1.
Qed.



Lemma chain_init l x : chain b (l ++ [x]) -> chain b l.
Proof.
  induction l as [|y l IH]; [done|].
  change ((y :: l) ++ [x]) with (y :: (l ++ [x])).
  intros [Hh Hc]%chain_cons. apply chain_cons. split; [|by apply IH].
  intros z Hz. apply Hh. destruct l; [done|]. simpl in *. done.
Qed.


















End CycleDetection.







(** ** Description round trip (C4) *)

Section Descriptions.







Lemma key_char_not_colon c : is_key_char c = true -> c ≠ ":"%char.
Proof. intros H ->. vm_compute in H. discriminate H. Qed.


























Lemma dict_get_not_elem_of (d : dict) k : k ∉ map fst d -> dict_get d k = None.
Proof.
  induction d as [|[k0 v0] d IH]; simpl; [done|].
  intros [Hne H]%not_elem_of_cons. rewrite decide_False by done. by apply IH.
Qed.

Lemma dict_get_elem_of_NoDup (d : dict) k v :
  NoDup (map fst d) -> (k, v) ∈ d -> dict_get d k = Some v.
Proof.
  induction d as [|[k0 v0] d IH]; simpl; intros Hnd Hin; [by apply elem_of_nil in Hin|].
  inversion Hnd as [|? ? Hnotin Hnd']; subst.
  apply elem_of_cons in Hin as [[= -> ->]|Hin]; [by rewrite decide_True|].
  rewrite decide_False; [by apply IH|].
  intros ->. apply Hnotin. apply list_elem_of_fmap. by exists (k, v).
Qed.


























End Descriptions.

(** ** Recipients (C1) *)

Section Importers.

Lemma NoDup_sorted (l : list str) : NoDup (sorted l) <-> NoDup l.
Proof. unfold sorted. by rewrite merge_sort_Permutation. Qed.

Lemma NoDup_all_uids b : NoDup (all_uids b).
Proof.
  unfold all_uids. apply NoDup_sorted.
  apply (sublist_NoDup _ ((map_to_list b).*1));
    [apply NoDup_fst_map_to_list|apply fmap_sublist, sublist_filter].
Qed.



























End Importers.

(** ** The effect of addImport and removeImport *)

Section ImportEffects.

Lemma dir_at_insert b k e X :
  dir_at (<[k := Dir e]> b) X = if decide (k = X) then Some e else dir_at b X.
Proof.
  unfold dir_at. case_decide as H.
  - subst. by rewrite lookup_insert_eq.
  - by rewrite lookup_insert_ne.
Qed.

Lemma exports_at_insert b k e X :
  exports_at (<[k := Dir e]> b) X
  = if decide (k = X) then e_exports e else exports_at b X.
Proof. unfold exports_at. rewrite dir_at_insert. by case_decide. Qed.


Lemma entity_exists_dir_at b uid :
  entity_exists b uid = true <-> is_Some (dir_at b uid).
Proof.
  rewrite entity_exists_dir. split.
  - intros [e He]. exists e. by apply dir_at_Some.
  - intros [e He]. exists e. by apply dir_at_Some.
Qed.

Lemma elem_of_all_uids_dir_at b uid :
  uid ∈ all_uids b <-> is_Some (dir_at b uid) /\ uid_prefix uid = true.
Proof. by rewrite elem_of_all_uids, <- entity_exists_dir, entity_exists_dir_at. Qed.



Lemma write_lines_dir b uid m e lines :
  dir_at b uid = Some e ->
  _write_lines (PMember uid m) lines b
  = (Ok tt, <[uid := Dir (set_member m (Some (text_of_lines lines)) e)]> b).
Proof. intros H%dir_at_Some. by apply write_lines_member. Qed.

Lemma read_imports_dir b uid :
  read_imports b uid
  = map _parse_import_line (_read_lines (dir_at b uid ≫= e_imports)).
Proof.
  unfold read_imports. rewrite file_at_member. f_equal.
  change (dir_at b uid ≫= member_of MImports) with (dir_at b uid ≫= e_imports).
  generalize (dir_at b uid ≫= e_imports). intros [t|]; [|done]. simpl.
  pose proof (lines_of_text_clean t) as Hc.
  induction Hc as [|l ls [Hne _] _ IH]; [done|].
  rewrite filter_cons, decide_True by (by destruct l). by rewrite IH.
Qed.

Lemma read_shared_dir b uid : read_shared b uid = _read_lines (dir_at b uid ≫= e_shared).
Proof. unfold read_shared. by rewrite file_at_member. Qed.

Lemma read_imports_ok b uid : Forall edge_ok (read_imports b uid).
Proof.
  rewrite read_imports_dir. apply Forall_fmap.
  destruct (dir_at b uid ≫= e_imports) as [t|]; [|constructor]. simpl.
  eapply Forall_impl; [apply lines_of_text_clean|].
  intros l Hl. by apply parse_import_line_ok.
Qed.

(** The edges read back from the lines [remove_import] and [remove_entity]
    write: the same edges, an empty [via=] read as none. *)
Lemma parse_written_edges (edges : list (str * option str)) :
  Forall edge_ok edges ->
  map _parse_import_line
    (lines_of_text (text_of_lines (map (fun i => _format_import_line i.1 i.2) edges)))
  = map (fun i => (i.1, norm_via i.2)) edges.
Proof.
  intros H. rewrite lines_of_text_of_lines.
  - rewrite map_map. apply map_ext_Forall.
    eapply Forall_impl; [exact H|]. intros i Hi. by apply parse_format_import_line.
  - apply Forall_fmap. eapply Forall_impl; [exact H|].
    intros i Hi. by apply format_import_line_clean.
Qed.



End ImportEffects.

(** ** Writes as updates of one entity directory *)

Section Updates.

(** The store with the entity directory [k], when there is one, changed by [f]. *)
Definition upd (k : str) (f : entity -> entity) (b : base) : base :=
  match dir_at b k with
  | Some e => <[k := Dir (f e)]> b
  | None => b
  end.

Lemma dir_at_upd b k f X :
  dir_at (upd k f b) X = if decide (k = X) then f <$> dir_at b X else dir_at b X.
Proof.
  unfold upd. destruct (dir_at b k) as [e|] eqn:E.
  - rewrite dir_at_insert. case_decide; [subst; by rewrite E|done].
  - case_decide; [subst; by rewrite E|done].
Qed.

Lemma lookup_upd_ne b k f X : k ≠ X -> upd k f b !! X = b !! X.
Proof.
  intros H. unfold upd. destruct (dir_at b k); [|done]. by rewrite lookup_insert_ne.
Qed.

Lemma lookup_upd_file b k f X t : upd k f b !! X = Some (File t) <-> b !! X = Some (File t).
Proof.
  destruct (decide (k = X)) as [->|Hne]; [|by rewrite lookup_upd_ne].
  unfold upd. destruct (dir_at b X) as [e|] eqn:E; [|done].
  apply dir_at_Some in E. rewrite lookup_insert_eq, E. split; intros; done.
Qed.

Lemma is_Some_dir_at_upd b k f X : is_Some (dir_at (upd k f b) X) <-> is_Some (dir_at b X).
Proof.
  rewrite dir_at_upd. case_decide; [|done]. by rewrite fmap_is_Some.
Qed.

Lemma upd_id b k f : (forall e, f e = e) -> upd k f b = b.
Proof.
  intros H. unfold upd. destruct (dir_at b k) as [e|] eqn:E; [|done].
  rewrite H. apply insert_id. by apply dir_at_Some.
Qed.

Lemma set_exports_same e : set_exports (e_exports e) e = e.
Proof. by destruct e. Qed.

(** [_safe_unlink] of a recipient file in an export area. *)
Definition unlink_file (name : str) (x : gmap str exp_entry) : gmap str exp_entry :=
  match x !! name with
  | Some (ExpFile _) => delete name x
  | _ => x
  end.

(** [_safe_unlink] of a recipient file in a sub-collection. *)
Definition unlink_sub (sub name : str) (x : gmap str exp_entry) : gmap str exp_entry :=
  match x !! sub with
  | Some (ExpDir fs) =>
      match fs !! name with
      | Some _ => <[sub := ExpDir (delete name fs)]> x
      | None => x
      end
  | _ => x
  end.

(** [_safe_rmtree] of a sub-collection. *)
Definition rm_sub (sub : str) (x : gmap str exp_entry) : gmap str exp_entry :=
  match x !! sub with
  | Some (ExpDir _) => delete sub x
  | _ => x
  end.

Definition on_exports (g : gmap str exp_entry -> gmap str exp_entry) (e : entity) : entity :=
  set_exports (g <$> e_exports e) e.

Lemma safe_unlink_export b M I :
  _safe_unlink (PExport M I) b = (Ok tt, upd M (on_exports (unlink_file I)) b).
Proof.
  unfold _safe_unlink, exists_, is_file, upd, on_exports. simpl. unfold exports_at.
  destruct (dir_at b M) as [e|] eqn:E; simpl; [|done].
  destruct (e_exports e) as [x|] eqn:Ex; simpl.
  - unfold unlink_file. destruct (x !! I) as [[t|fs]|] eqn:EI; simpl.
    + done.
    + rewrite <- Ex, set_exports_same. by rewrite insert_id by (by apply dir_at_Some).
    + rewrite <- Ex, set_exports_same. by rewrite insert_id by (by apply dir_at_Some).
  - rewrite <- Ex, set_exports_same. by rewrite insert_id by (by apply dir_at_Some).
Qed.

Lemma alter_sub_delete (x : gmap str exp_entry) sub name fs :
  x !! sub = Some (ExpDir fs) ->
  alter (fun y => match y with ExpDir fs => ExpDir (delete name fs) | _ => y end) sub x
  = <[sub := ExpDir (delete name fs)]> x.
Proof.
  intros H. apply map_eq. intros k. rewrite lookup_alter, lookup_insert.
  case_decide; [subst; by rewrite H|done].
Qed.

Lemma safe_unlink_sub b E M I :
  _safe_unlink (PSub E M I) b = (Ok tt, upd E (on_exports (unlink_sub M I)) b).
Proof.
  unfold _safe_unlink, exists_, is_file, upd, on_exports. simpl. unfold exports_at.
  destruct (dir_at b E) as [e|] eqn:He; simpl; [|done].
  destruct (e_exports e) as [x|] eqn:Ex; simpl.
  - unfold unlink_sub. destruct (x !! M) as [[t|fs]|] eqn:EM; simpl.
    + rewrite <- Ex, set_exports_same. by rewrite insert_id by (by apply dir_at_Some).
    + destruct (fs !! I) as [t|] eqn:EI; simpl.
      * simpl. by rewrite (alter_sub_delete _ _ _ fs).
      * rewrite <- Ex, set_exports_same. by rewrite insert_id by (by apply dir_at_Some).
    + rewrite <- Ex, set_exports_same. by rewrite insert_id by (by apply dir_at_Some).
  - rewrite <- Ex, set_exports_same. by rewrite insert_id by (by apply dir_at_Some).
Qed.

Lemma safe_rmtree_sub b Y X :
  _safe_rmtree (PExport Y X) b = (Ok tt, upd Y (on_exports (rm_sub X)) b).
Proof.
  unfold _safe_rmtree, exists_, is_dir, upd, on_exports. simpl. unfold exports_at.
  destruct (dir_at b Y) as [e|] eqn:E; simpl; [|done].
  destruct (e_exports e) as [x|] eqn:Ex; simpl.
  - unfold rm_sub. destruct (x !! X) as [[t|fs]|] eqn:EI; simpl.
    + rewrite <- Ex, set_exports_same. by rewrite insert_id by (by apply dir_at_Some).
    + done.
    + rewrite <- Ex, set_exports_same. by rewrite insert_id by (by apply dir_at_Some).
  - rewrite <- Ex, set_exports_same. by rewrite insert_id by (by apply dir_at_Some).
Qed.

Lemma write_lines_upd b uid m lines :
  is_Some (dir_at b uid) ->
  _write_lines (PMember uid m) lines b
  = (Ok tt, upd uid (set_member m (Some (text_of_lines lines))) b).
Proof.
  intros [e He]. unfold upd. rewrite He. by apply write_lines_dir.
Qed.


(** The entity after [_remove_line_value] on one of its members. *)
Definition remove_member (m : member) (target : str) (e : entity) : entity :=
  set_member m
    (Some (text_of_lines (filter (fun ln => ln ≠ target) (_read_lines (member_of m e))))) e.

Lemma remove_line_value_upd b uid m target :
  is_Some (dir_at b uid) ->
  exists changed,
    _remove_line_value (PMember uid m) target b
    = (Ok changed, upd uid (remove_member m target) b).
Proof.
  intros [e He]. unfold _remove_line_value, bind.
  rewrite read_lines_at_member. rewrite write_lines_upd by eauto.
  eexists. unfold ret, upd. rewrite He. unfold remove_member.
  by rewrite file_at_member, He.
Qed.








End Updates.

(** ** Edge symmetry (C1) *)

Section EdgeSymmetry.










Lemma imports_upd_preserved b k f X :
  (forall e, e_imports (f e) = e_imports e) ->
  dir_at (upd k f b) X ≫= e_imports = dir_at b X ≫= e_imports.
Proof.
  intros H. rewrite dir_at_upd. case_decide; [|done].
  destruct (dir_at b X); simpl; [apply H|done].
Qed.

Lemma exports_upd_preserved b k f X :
  (forall e, e_exports (f e) = e_exports e) ->
  exports_at (upd k f b) X = exports_at b X.
Proof.
  intros H. unfold exports_at. rewrite dir_at_upd. case_decide; [|done].
  destruct (dir_at b X); simpl; [apply H|done].
Qed.



Lemma read_imports_upd_preserved b k f X :
  (forall e, e_imports (f e) = e_imports e) ->
  read_imports (upd k f b) X = read_imports b X.
Proof. intros H. by rewrite !read_imports_dir, imports_upd_preserved. Qed.

Lemma read_imports_upd_eq b k f e :
  dir_at b k = Some e ->
  read_imports (upd k f b) k = map _parse_import_line (_read_lines (e_imports (f e))).
Proof. intros H. by rewrite read_imports_dir, dir_at_upd, decide_True, H. Qed.

Lemma unlink_file_lookup_same name x t : unlink_file name x !! name ≠ Some (ExpFile t).
Proof.
  unfold unlink_file. destruct (x !! name) as [[t'|fs]|] eqn:E;
    [by rewrite lookup_delete_eq|by rewrite E|by rewrite E].
Qed.


Lemma unlink_sub_lookup sub name x k fs :
  unlink_sub sub name x !! k = Some (ExpDir fs) ->
  (k = sub /\ fs !! name = None) \/ (k ≠ sub /\ x !! k = Some (ExpDir fs)).
Proof.
  unfold unlink_sub. destruct (decide (k = sub)) as [->|Hne].
  - intros H. left. split; [done|].
    destruct (x !! sub) as [[t'|fs']|] eqn:E; try (by rewrite E in H).
    destruct (fs' !! name) eqn:En.
    + rewrite lookup_insert_eq in H. simplify_eq. by rewrite lookup_delete_eq.
    + rewrite E in H. by simplify_eq.
  - intros H. right. split; [done|].
    destruct (x !! sub) as [[t'|fs']|] eqn:E; try done.
    destruct (fs' !! name); [|done]. by rewrite lookup_insert_ne in H.
Qed.

Lemma unlink_sub_lookup_file sub name x k t :
  unlink_sub sub name x !! k = Some (ExpFile t) -> x !! k = Some (ExpFile t).
Proof.
  unfold unlink_sub. destruct (x !! sub) as [[t'|fs']|] eqn:E; try done.
  destruct (fs' !! name); [|done]. destruct (decide (sub = k)) as [->|Hne].
  - by rewrite lookup_insert_eq.
  - by rewrite lookup_insert_ne.
Qed.





Lemma read_shared_upd_preserved b k f X :
  (forall e, e_shared (f e) = e_shared e) ->
  read_shared (upd k f b) X = read_shared b X.
Proof.
  intros H. rewrite !read_shared_dir, dir_at_upd. case_decide; [|done].
  destruct (dir_at b X); simpl; [by rewrite H|done].
Qed.











End EdgeSymmetry.

(** ** Cascading delete (C2) *)

Section CascadingDelete.

(** A loop whose body keeps an invariant indexed by what it has done. *)
Lemma for_each_inv {A : Type} (Inv : list A -> base -> Prop) (l : list A)
    (body : A -> M unit) :
  (forall done_ x rest cur,
      l = done_ ++ x :: rest -> Inv done_ cur ->
      exists cur', body x cur = (Ok tt, cur') /\ Inv (done_ ++ [x]) cur') ->
  forall b, Inv [] b -> exists b', for_each l body b = (Ok tt, b') /\ Inv l b'.
Proof.
  intros Hstep.
  assert (H : forall rest done_ cur,
             l = done_ ++ rest -> Inv done_ cur ->
             exists b', for_each rest body cur = (Ok tt, b') /\ Inv l b').
  { induction rest as [|x rest IH]; intros done_ cur Hl Hinv.
    - rewrite app_nil_r in Hl. subst. by exists cur.
    - destruct (Hstep done_ x rest cur Hl Hinv) as [cur' [Hb Hinv']].
      destruct (IH (done_ ++ [x]) cur') as [b' [Hf Hb']].
      + by rewrite <- app_assoc.
      + done.
      + exists b'. split; [|done]. simpl. unfold bind. by rewrite Hb. }
  intros b Hb. by apply (H l [] b).
Qed.

(** The export areas of [b'] hold no record that [b] does not hold. *)
Definition shrinks (b b' : base) : Prop :=
  forall Y,
    (forall k t, exports_at b' Y ≫= (.!! k) = Some (ExpFile t) ->
                 exports_at b Y ≫= (.!! k) = Some (ExpFile t))
    /\ (forall S fs', exports_at b' Y ≫= (.!! S) = Some (ExpDir fs') ->
          exists fs, exports_at b Y ≫= (.!! S) = Some (ExpDir fs) /\ fs' ⊆ fs).

Definition shrinking (g : gmap str exp_entry -> gmap str exp_entry) : Prop :=
  forall x,
    (forall k t, g x !! k = Some (ExpFile t) -> x !! k = Some (ExpFile t))
    /\ (forall S fs', g x !! S = Some (ExpDir fs') ->
          exists fs, x !! S = Some (ExpDir fs) /\ fs' ⊆ fs).

Lemma shrinks_refl b : shrinks b b.
Proof. intros Y. split; [done|]. intros S fs H. by exists fs. Qed.

Lemma shrinks_trans b1 b2 b3 : shrinks b1 b2 -> shrinks b2 b3 -> shrinks b1 b3.
Proof.
  intros H12 H23 Y. destruct (H12 Y) as [Ha Hb], (H23 Y) as [Hc Hd]. split.
  - intros k t H. by apply Ha, Hc.
  - intros S fs3 H. destruct (Hd S fs3 H) as [fs2 [H2 Hs2]].
    destruct (Hb S fs2 H2) as [fs1 [H1 Hs1]]. exists fs1. split; [done|].
    by etrans.
Qed.

Lemma shrinks_of_eq b b' : (forall Y, exports_at b' Y = exports_at b Y) -> shrinks b b'.
Proof.
  intros H Y. rewrite H. split; [done|]. intros S fs Hfs. by exists fs.
Qed.

Lemma shrinking_unlink_file name : shrinking (unlink_file name).
Proof.
  intros x. unfold unlink_file. destruct (x !! name) as [[t0|fs0]|] eqn:E.
  - split.
    + intros k t. destruct (decide (name = k)) as [->|Hne].
      * by rewrite lookup_delete_eq.
      * by rewrite lookup_delete_ne.
    + intros S fs'. destruct (decide (name = S)) as [->|Hne].
      * by rewrite lookup_delete_eq.
      * rewrite lookup_delete_ne by done. intros H. by exists fs'.
  - split; [done|]. intros S fs' H. by exists fs'.
  - split; [done|]. intros S fs' H. by exists fs'.
Qed.

Lemma shrinking_unlink_sub sub name : shrinking (unlink_sub sub name).
Proof.
  intros x. split.
  - intros k t. apply unlink_sub_lookup_file.
  - intros S fs' H. unfold unlink_sub in H.
    destruct (x !! sub) as [[t0|fs0]|] eqn:E; try (by exists fs').
    destruct (fs0 !! name) eqn:En; [|by exists fs'].
    destruct (decide (sub = S)) as [->|Hne].
    + rewrite lookup_insert_eq in H. simplify_eq. exists fs0. split; [done|].
      apply delete_subseteq.
    + rewrite lookup_insert_ne in H by done. by exists fs'.
Qed.

Lemma shrinking_rm_sub sub : shrinking (rm_sub sub).
Proof.
  intros x. unfold rm_sub. destruct (x !! sub) as [[t0|fs0]|] eqn:E.
  - split; [done|]. intros S fs' H. by exists fs'.
  - split.
    + intros k t. destruct (decide (sub = k)) as [->|Hne].
      * by rewrite lookup_delete_eq.
      * by rewrite lookup_delete_ne.
    + intros S fs'. destruct (decide (sub = S)) as [->|Hne].
      * by rewrite lookup_delete_eq.
      * rewrite lookup_delete_ne by done. intros H. by exists fs'.
  - split; [done|]. intros S fs' H. by exists fs'.
Qed.

Lemma exports_upd_on_exports b k g Y :
  exports_at (upd k (on_exports g) b) Y
  = if decide (k = Y) then g <$> exports_at b Y else exports_at b Y.
Proof.
  unfold exports_at. rewrite dir_at_upd. case_decide; [|done].
  by destruct (dir_at b Y).
Qed.

Lemma shrinks_upd_on_exports b k g : shrinking g -> shrinks b (upd k (on_exports g) b).
Proof.
  intros Hg Y. rewrite exports_upd_on_exports. case_decide; [|apply shrinks_refl].
  destruct (exports_at b Y) as [x|]; simpl; [apply Hg|].
  split; [done|]. by intros.
Qed.

(** The observations a step leaves alone. *)
Definition same_dirs (b b' : base) : Prop :=
  forall Y, is_Some (dir_at b' Y) <-> is_Some (dir_at b Y).
Definition same_files (b b' : base) : Prop :=
  forall Y t, b' !! Y = Some (File t) <-> b !! Y = Some (File t).
Definition same_imports (b b' : base) : Prop :=
  forall Y, read_imports b' Y = read_imports b Y.
Definition same_shared (b b' : base) : Prop :=
  forall Y, read_shared b' Y = read_shared b Y.
Definition same_exports (b b' : base) : Prop :=
  forall Y, exports_at b' Y = exports_at b Y.

Lemma same_dirs_upd b k f : same_dirs b (upd k f b).
Proof. intros Y. apply is_Some_dir_at_upd. Qed.

Lemma same_files_upd b k f : same_files b (upd k f b).
Proof. intros Y t. apply lookup_upd_file. Qed.

Lemma same_imports_upd b k f :
  (forall e, e_imports (f e) = e_imports e) -> same_imports b (upd k f b).
Proof. intros H Y. by apply read_imports_upd_preserved. Qed.

Lemma same_shared_upd b k f :
  (forall e, e_shared (f e) = e_shared e) -> same_shared b (upd k f b).
Proof. intros H Y. by apply read_shared_upd_preserved. Qed.

Lemma same_exports_upd b k f :
  (forall e, e_exports (f e) = e_exports e) -> same_exports b (upd k f b).
Proof. intros H Y. by apply exports_upd_preserved. Qed.

Lemma all_uids_same b b' uid :
  same_dirs b b' -> (uid ∈ all_uids b' <-> uid ∈ all_uids b).
Proof. intros H. rewrite !elem_of_all_uids_dir_at. by rewrite (H uid). Qed.

(** An edge that does not mention [X]. *)
Definition clean (X : str) (i : str * option str) : Prop := i.1 ≠ X /\ i.2 ≠ Some X.

Lemma clean_norm X i : clean X i -> clean X (i.1, norm_via i.2).
Proof.
  intros [H1 H2]. split; [done|]. simpl. unfold norm_via.
  by destruct (opt_truthy i.2).
Qed.

(** One turn of the first loop. *)
Lemma strip_mentions_step X other cur :
  is_Some (dir_at cur other) ->
  exists cur',
    strip_mentions X other cur = (Ok tt, cur')
    /\ same_dirs cur cur' /\ same_files cur cur'
    /\ same_exports cur cur' /\ same_shared cur cur'
    /\ (forall Y, Y ≠ other -> read_imports cur' Y = read_imports cur Y)
    /\ (other = X -> cur' = cur)
    /\ (other ≠ X -> Forall (clean X) (read_imports cur' other)).
Proof.
  intros [e He]. unfold strip_mentions, when.
  destruct (decide (other = X)) as [->|Hne].
  { rewrite bool_decide_eq_false_2 by (by intros H). exists cur.
    by repeat split. }
  rewrite bool_decide_eq_true_2 by done. rewrite bind_get.
  case_bool_decide as Hex.
  - rewrite write_lines_upd by eauto. eexists. split; [done|].
    split; [apply same_dirs_upd|]. split; [apply same_files_upd|].
    split; [apply same_exports_upd; intros; apply exports_set_member|].
    split; [apply same_shared_upd; by intros []|].
    split; [|split; [done|]].
    + intros Y HY. rewrite !read_imports_dir, dir_at_upd.
      by rewrite decide_False by done.
    + intros _. rewrite (read_imports_upd_eq _ _ _ e) by done. simpl.
      rewrite parse_written_edges.
      * apply Forall_forall. intros i Hi. apply list_elem_of_fmap in Hi as [j [-> Hj]].
        apply list_elem_of_filter in Hj as [Hj _]. by apply clean_norm.
      * eapply Forall_forall. intros i Hi. apply list_elem_of_filter in Hi as [_ Hi].
        revert i Hi. apply Forall_forall, read_imports_ok.
  - exists cur. repeat split; try done.
    intros _. apply Forall_forall. intros i Hi. split.
    + intros H1. apply Hex, Exists_exists. exists i. split; [done|by left].
    + intros H2. apply Hex, Exists_exists. exists i. split; [done|by right].
Qed.

(** The first loop. *)
Lemma strip_mentions_loop X b :
  exists b1,
    for_each (all_uids b) (strip_mentions X) b = (Ok tt, b1)
    /\ same_dirs b b1 /\ same_files b b1 /\ same_exports b b1 /\ same_shared b b1
    /\ read_imports b1 X = read_imports b X
    /\ (forall Y, Y ∈ all_uids b -> Y ≠ X -> Forall (clean X) (read_imports b1 Y)).
Proof.
  pose (Inv := fun (done_ : list str) (cur : base) =>
    same_dirs b cur /\ same_files b cur /\ same_exports b cur /\ same_shared b cur
    /\ read_imports cur X = read_imports b X
    /\ (forall Y, Y ∈ done_ -> Y ≠ X -> Forall (clean X) (read_imports cur Y))).
  destruct (for_each_inv Inv (all_uids b) (strip_mentions X)) with (b := b)
    as [b1 [Hrun Hinv]].
  - intros done_ x rest cur Hl (Hd & Hf & He & Hs & HX & Hc).
    assert (Hx : is_Some (dir_at cur x)).
    { apply Hd. apply (elem_of_all_uids_dir_at b x). rewrite Hl. set_solver. }
    destruct (strip_mentions_step X x cur Hx)
      as (cur' & Hrun & Hd' & Hf' & He' & Hs' & Hi' & Hsame & Hclean).
    exists cur'. split; [done|]. repeat split.
    + by rewrite (Hd' Y), (Hd Y).
    + by rewrite (Hd' Y), (Hd Y).
    + by rewrite (Hf' Y t), (Hf Y t).
    + by rewrite (Hf' Y t), (Hf Y t).
    + intros Y. by rewrite (He' Y), (He Y).
    + intros Y. by rewrite (Hs' Y), (Hs Y).
    + destruct (decide (x = X)) as [->|Hne]; [by rewrite Hsame|].
      by rewrite Hi'.
    + intros Y HY HYX. destruct (decide (Y = x)) as [->|Hne]; [by apply Hclean|].
      rewrite Hi' by done. apply Hc; [|done]. set_solver.
  - split; [by intros Y|]. split; [by intros Y t|]. split; [by intros Y|].
    split; [by intros Y|]. split; [done|]. intros Y HY. by apply elem_of_nil in HY.
  - exists b1. destruct Hinv as (Hd & Hf & He & Hs & HX & Hc). by split_and!.
Qed.

Lemma same_dirs_trans b1 b2 b3 : same_dirs b1 b2 -> same_dirs b2 b3 -> same_dirs b1 b3.
Proof. intros H1 H2 Y. by rewrite (H2 Y), (H1 Y). Qed.

Lemma same_files_trans b1 b2 b3 : same_files b1 b2 -> same_files b2 b3 -> same_files b1 b3.
Proof. intros H1 H2 Y t. by rewrite (H2 Y t), (H1 Y t). Qed.

Lemma same_imports_trans b1 b2 b3 :
  same_imports b1 b2 -> same_imports b2 b3 -> same_imports b1 b3.
Proof. intros H1 H2 Y. by rewrite (H2 Y), (H1 Y). Qed.

Lemma same_shared_trans b1 b2 b3 :
  same_shared b1 b2 -> same_shared b2 b3 -> same_shared b1 b3.
Proof. intros H1 H2 Y. by rewrite (H2 Y), (H1 Y). Qed.

Lemma same_exports_trans b1 b2 b3 :
  same_exports b1 b2 -> same_exports b2 b3 -> same_exports b1 b3.
Proof. intros H1 H2 Y. by rewrite (H2 Y), (H1 Y). Qed.

(** The reverse record of [X] for one of its edges is not in the store. *)
Definition record_absent (X : str) (edge : str * option str) (b : base) : Prop :=
  if opt_truthy edge.2
  then forall fs, exports_at b (default [] edge.2) ≫= (.!! edge.1) = Some (ExpDir fs) ->
                  fs !! X = None
  else forall t, exports_at b edge.1 ≫= (.!! X) ≠ Some (ExpFile t).

Lemma record_absent_shrinks X edge b b' :
  shrinks b b' -> record_absent X edge b -> record_absent X edge b'.
Proof.
  unfold record_absent. intros Hs. destruct (opt_truthy edge.2).
  - intros H fs' Hfs'. destruct (Hs (default [] edge.2)) as [_ Hd].
    destruct (Hd _ _ Hfs') as [fs [Hfs Hsub]]. specialize (H fs Hfs).
    destruct (fs' !! X) as [t|] eqn:E; [|done].
    by rewrite (lookup_weaken _ _ _ _ E Hsub) in H.
  - intros H t Ht. destruct (Hs edge.1) as [Hf _]. by apply (H t), Hf.
Qed.

(** One turn of the second loop. *)
Lemma drop_reverse_step X edge cur :
  exists cur',
    drop_reverse X edge cur = (Ok tt, cur')
    /\ same_dirs cur cur' /\ same_files cur cur'
    /\ same_imports cur cur' /\ same_shared cur cur'
    /\ shrinks cur cur' /\ record_absent X edge cur'.
Proof.
  unfold drop_reverse, record_absent. destruct (opt_truthy edge.2).
  - rewrite safe_unlink_sub. eexists. split; [done|].
    split; [apply same_dirs_upd|]. split; [apply same_files_upd|].
    split; [apply same_imports_upd; by intros []|].
    split; [apply same_shared_upd; by intros []|].
    split; [apply shrinks_upd_on_exports, shrinking_unlink_sub|].
    intros fs. rewrite exports_upd_on_exports, decide_True by done.
    destruct (exports_at cur (default [] edge.2)) as [x|]; simpl; [|done].
    intros H. apply unlink_sub_lookup in H as [[_ H]|[H _]]; done.
  - rewrite safe_unlink_export. eexists. split; [done|].
    split; [apply same_dirs_upd|]. split; [apply same_files_upd|].
    split; [apply same_imports_upd; by intros []|].
    split; [apply same_shared_upd; by intros []|].
    split; [apply shrinks_upd_on_exports, shrinking_unlink_file|].
    intros t. rewrite exports_upd_on_exports, decide_True by done.
    destruct (exports_at cur edge.1) as [x|]; simpl; [|done].
    apply unlink_file_lookup_same.
Qed.

(** The second loop. *)
Lemma drop_reverse_loop X own b1 :
  exists b2,
    for_each own (drop_reverse X) b1 = (Ok tt, b2)
    /\ same_dirs b1 b2 /\ same_files b1 b2
    /\ same_imports b1 b2 /\ same_shared b1 b2
    /\ shrinks b1 b2 /\ (forall edge, edge ∈ own -> record_absent X edge b2).
Proof.
  pose (Inv := fun (done_ : list (str * option str)) (cur : base) =>
    same_dirs b1 cur /\ same_files b1 cur /\ same_imports b1 cur /\ same_shared b1 cur
    /\ shrinks b1 cur /\ (forall edge, edge ∈ done_ -> record_absent X edge cur)).
  destruct (for_each_inv Inv own (drop_reverse X)) with (b := b1) as [b2 [Hrun Hinv]].
  - intros done_ x rest cur Hl (Hd & Hf & Hi & Hs & Hsh & Hab).
    destruct (drop_reverse_step X x cur)
      as (cur' & Hrun & Hd' & Hf' & Hi' & Hs' & Hsh' & Hab').
    exists cur'. split; [done|].
    split; [by eapply same_dirs_trans|]. split; [by eapply same_files_trans|].
    split; [by eapply same_imports_trans|]. split; [by eapply same_shared_trans|].
    split; [by eapply shrinks_trans|].
    intros edge Hedge. apply elem_of_app in Hedge as [Hedge|Hedge].
    + eapply record_absent_shrinks; [exact Hsh'|]. by apply Hab.
    + apply list_elem_of_singleton in Hedge. by subst.
  - split; [by intros Y|]. split; [by intros Y t|]. split; [by intros Y|].
    split; [by intros Y|]. split; [apply shrinks_refl|].
    intros Y HY. by apply elem_of_nil in HY.
  - by exists b2.
Qed.

Lemma rm_sub_lookup_same sub x fs : rm_sub sub x !! sub ≠ Some (ExpDir fs).
Proof.
  unfold rm_sub. destruct (x !! sub) as [[t0|fs0]|] eqn:E;
    [by rewrite E|by rewrite lookup_delete_eq|by rewrite E].
Qed.

Lemma read_shared_removed b other X e :
  dir_at b other = Some e ->
  read_shared (upd other (remove_member MShared X) b) other
  = filter (fun ln => ln ≠ X) (read_shared b other).
Proof.
  intros He. rewrite !read_shared_dir, dir_at_upd, decide_True, He by done. simpl.
  apply lines_of_text_of_lines. apply Forall_forall. intros l Hl.
  apply list_elem_of_filter in Hl as [_ Hl]. revert l Hl. apply Forall_forall.
  destruct (e_shared e); [apply lines_of_text_clean|done].
Qed.

(** One turn of the third loop. *)
Lemma unshare_step X other cur :
  is_Some (dir_at cur other) ->
  exists cur',
    unshare X other cur = (Ok tt, cur')
    /\ same_dirs cur cur' /\ same_files cur cur' /\ same_imports cur cur'
    /\ shrinks cur cur'
    /\ (forall Y, Y ≠ other -> read_shared cur' Y = read_shared cur Y)
    /\ (other ≠ X ->
        (X ∉ read_shared cur' other)
        /\ (X ∈ read_shared cur other ->
            forall fs, exports_at cur' other ≫= (.!! X) ≠ Some (ExpDir fs))).
Proof.
  intros [e He]. unfold unshare, when.
  destruct (decide (other = X)) as [->|Hne].
  { rewrite bool_decide_eq_false_2 by (by intros H). exists cur.
    split; [done|]. split; [by intros Y|]. split; [by intros Y t|].
    split; [by intros Y|]. split; [apply shrinks_refl|]. by split. }
  rewrite bool_decide_eq_true_2 by done. rewrite bind_get.
  case_bool_decide as Hin.
  - destruct (remove_line_value_upd cur other MShared X) as [changed Hrm]; [eauto|].
    unfold bind at 1. rewrite Hrm, safe_rmtree_sub. eexists. split; [done|].
    set (cur1 := upd other (remove_member MShared X) cur).
    split; [eapply same_dirs_trans; apply same_dirs_upd|].
    split; [eapply same_files_trans; apply same_files_upd|].
    split.
    { eapply same_imports_trans; apply same_imports_upd; by intros []. }
    split.
    { eapply shrinks_trans; [|apply shrinks_upd_on_exports, shrinking_rm_sub].
      apply shrinks_of_eq. apply same_exports_upd. by intros []. }
    split.
    { intros Y HY. unfold cur1. rewrite !read_shared_dir, !dir_at_upd.
      by rewrite !decide_False by (by intros ->). }
    intros _. split.
    + rewrite read_shared_upd_preserved by (by intros []).
      unfold cur1. rewrite (read_shared_removed _ _ _ e) by done.
      intros H. by apply list_elem_of_filter in H as [H _].
    + intros _ fs. rewrite exports_upd_on_exports, decide_True by done.
      destruct (exports_at cur1 other) as [x|]; simpl; [|done].
      apply rm_sub_lookup_same.
  - exists cur. split; [done|]. split; [by intros Y|]. split; [by intros Y t|].
    split; [by intros Y|]. split; [apply shrinks_refl|]. split; [done|].
    intros _. by split.
Qed.

Lemma not_sub_shrinks b b' Y X :
  shrinks b b' ->
  (forall fs, exports_at b Y ≫= (.!! X) ≠ Some (ExpDir fs)) ->
  forall fs, exports_at b' Y ≫= (.!! X) ≠ Some (ExpDir fs).
Proof.
  intros Hs H fs Hfs. destruct (Hs Y) as [_ Hd].
  destruct (Hd _ _ Hfs) as [fs0 [H0 _]]. by apply (H fs0).
Qed.

(** The third loop. *)
Lemma unshare_loop X b b2 :
  same_dirs b b2 ->
  exists b3,
    for_each (all_uids b) (unshare X) b2 = (Ok tt, b3)
    /\ same_dirs b2 b3 /\ same_files b2 b3 /\ same_imports b2 b3
    /\ shrinks b2 b3
    /\ (forall Y, Y ∈ all_uids b -> Y ≠ X ->
          (X ∉ read_shared b3 Y)
          /\ (X ∈ read_shared b2 Y ->
              forall fs, exports_at b3 Y ≫= (.!! X) ≠ Some (ExpDir fs))).
Proof.
  intros Hdirs.
  pose (Inv := fun (done_ : list str) (cur : base) =>
    same_dirs b2 cur /\ same_files b2 cur /\ same_imports b2 cur /\ shrinks b2 cur
    /\ (forall Y, Y ∉ done_ -> read_shared cur Y = read_shared b2 Y)
    /\ (forall Y, Y ∈ done_ -> Y ≠ X ->
          (X ∉ read_shared cur Y)
          /\ (X ∈ read_shared b2 Y ->
              forall fs, exports_at cur Y ≫= (.!! X) ≠ Some (ExpDir fs)))).
  destruct (for_each_inv Inv (all_uids b) (unshare X)) with (b := b2)
    as [b3 [Hrun Hinv]].
  - intros done_ x rest cur Hl (Hd & Hf & Hi & Hsh & Hrest & Hdone).
    assert (Hnd : NoDup (done_ ++ x :: rest)) by (rewrite <- Hl; apply NoDup_all_uids).
    apply NoDup_app in Hnd as (_ & Hnd & _).
    assert (Hxd : x ∉ done_) by (intros H; apply (Hnd x H); by left).
    assert (Hx : is_Some (dir_at cur x)).
    { apply Hd, Hdirs. apply (elem_of_all_uids_dir_at b x). rewrite Hl. set_solver. }
    destruct (unshare_step X x cur Hx)
      as (cur' & Hrun & Hd' & Hf' & Hi' & Hsh' & Hs' & Hx').
    exists cur'. split; [done|].
    split; [by eapply same_dirs_trans|]. split; [by eapply same_files_trans|].
    split; [by eapply same_imports_trans|]. split; [by eapply shrinks_trans|].
    split.
    + intros Y HY. apply not_elem_of_app in HY as [HY1 HY2].
      apply not_elem_of_cons in HY2 as [HY2 _]. rewrite Hs' by done. by apply Hrest.
    + intros Y HY HYX. apply elem_of_app in HY as [HY|HY].
      * assert (Y ≠ x) by (by intros ->).
        destruct (Hdone Y HY HYX) as [H1 H2]. split; [by rewrite Hs'|].
        intros Hin. eapply not_sub_shrinks; [exact Hsh'|]. by apply H2.
      * apply list_elem_of_singleton in HY. subst Y.
        destruct (Hx' HYX) as [H1 H2]. split; [done|].
        intros Hin. apply H2. by rewrite Hrest.
  - split; [by intros Y|]. split; [by intros Y t|]. split; [by intros Y|].
    split; [apply shrinks_refl|]. split; [done|].
    intros Y HY. by apply elem_of_nil in HY.
  - exists b3. destruct Hinv as (Hd & Hf & Hi & Hsh & _ & Hdone). by split_and!.
Qed.

(** One turn of the fourth loop, on a TOC list that is a file. *)
Lemma toc_step X toc cur t :
  cur !! toc = Some (File t) ->
  (_remove_line_value (PTop toc) X ;; ret tt) cur
  = (Ok tt, <[toc := File (text_of_lines (filter (fun ln => ln ≠ X) (lines_of_text t)))]> cur).
Proof.
  intros H. unfold _remove_line_value, bind. rewrite read_lines_at_top.
  - unfold _write_lines, write_file, ret, file_at, stat. by rewrite H.
  - unfold is_dir, stat. by rewrite H.
Qed.

Definition is_a_file (b : base) (k : str) : Prop := exists t, b !! k = Some (File t).

Lemma dir_at_insert_file b k t Y :
  is_a_file b k -> dir_at (<[k := File t]> b) Y = dir_at b Y.
Proof.
  intros [t0 H]. unfold dir_at. destruct (decide (k = Y)) as [->|Hne].
  - by rewrite lookup_insert_eq, H.
  - by rewrite lookup_insert_ne.
Qed.

Lemma is_a_file_insert b k t Y :
  is_a_file b k -> is_a_file (<[k := File t]> b) Y <-> is_a_file b Y.
Proof.
  intros Hk. unfold is_a_file. destruct (decide (k = Y)) as [->|Hne].
  - rewrite lookup_insert_eq. split; [done|]. intros _. by exists t.
  - by rewrite lookup_insert_ne.
Qed.

Lemma filtered_lines_read X (t : str) :
  X ∉ lines_of_text (text_of_lines (filter (fun ln => ln ≠ X) (lines_of_text t))).
Proof.
  rewrite lines_of_text_of_lines.
  - intros H. by apply list_elem_of_filter in H as [H _].
  - apply Forall_forall. intros l Hl. apply list_elem_of_filter in Hl as [_ Hl].
    revert l Hl. apply Forall_forall, lines_of_text_clean.
Qed.

(** The fourth loop. *)
Lemma toc_loop X b3 :
  exists b4,
    for_each (all_toc_paths b3)
      (fun toc => _remove_line_value (PTop toc) X ;; ret tt) b3 = (Ok tt, b4)
    /\ (forall Y, dir_at b4 Y = dir_at b3 Y)
    /\ (forall k, is_a_file b4 k <-> is_a_file b3 k)
    /\ (forall toc, toc ∈ all_toc_paths b3 -> X ∉ _read_lines (file_at b4 (PTop toc))).
Proof.
  pose (Inv := fun (done_ : list str) (cur : base) =>
    (forall Y, dir_at cur Y = dir_at b3 Y)
    /\ (forall k, is_a_file cur k <-> is_a_file b3 k)
    /\ (forall toc, toc ∈ done_ -> X ∉ _read_lines (file_at cur (PTop toc)))).
  destruct (for_each_inv Inv (all_toc_paths b3)
              (fun toc => _remove_line_value (PTop toc) X ;; ret tt)) with (b := b3)
    as [b4 [Hrun Hinv]].
  - intros done_ x rest cur Hl (Hd & Hf & Hdone).
    assert (Hx : is_a_file cur x).
    { apply Hf. apply (elem_of_all_toc_paths b3 x). rewrite Hl. set_solver. }
    destruct Hx as [t Ht]. rewrite (toc_step X x cur t Ht). eexists. split; [done|].
    split; [|split].
    + intros Y. rewrite dir_at_insert_file by (by exists t). apply Hd.
    + intros k. rewrite is_a_file_insert by (by exists t). apply Hf.
    + intros toc Htoc. unfold file_at, stat. destruct (decide (x = toc)) as [->|Hne].
      * rewrite lookup_insert_eq. simpl. apply filtered_lines_read.
      * rewrite lookup_insert_ne by done. apply elem_of_app in Htoc as [Htoc|Htoc].
        -- by apply Hdone.
        -- apply list_elem_of_singleton in Htoc. by subst.
  - split; [done|]. split; [done|]. intros Y HY. by apply elem_of_nil in HY.
  - by exists b4.
Qed.

(** The last step: the directory of the entity goes. *)
Lemma rmtree_entity X b4 :
  is_Some (dir_at b4 X) -> _safe_rmtree (PTop X) b4 = (Ok tt, delete X b4).
Proof.
  intros [e He]. apply dir_at_Some in He.
  unfold _safe_rmtree, exists_, is_dir, stat, rmtree. by rewrite He.
Qed.

Lemma dir_at_delete b X Y : Y ≠ X -> dir_at (delete X b) Y = dir_at b Y.
Proof. intros H. unfold dir_at. by rewrite lookup_delete_ne. Qed.

Lemma uid_prefix_truthy (Y : str) : uid_prefix Y = true -> truthy Y = true /\ Y ≠ DESC_FILE.
Proof.
  intros H. split; [by destruct Y|]. intros ->. by vm_compute in H.
Qed.

(** The reverse record of the edge [edge] of [I] is in the store. *)
Definition reverse_record (b : base) (I : str) (edge : str * option str) : Prop :=
  if opt_truthy edge.2
  then exists fs t,
      exports_at b (default [] edge.2) ≫= (.!! edge.1) = Some (ExpDir fs)
      /\ fs !! I = Some t
  else exists t, exports_at b edge.1 ≫= (.!! I) = Some (ExpFile t).

(** The invariants 1 and 2 of the data model, on the entities of a store:
    every edge has its reverse record and every reverse record its edge;
    every shared uid has its sub-collection and every sub-collection is of
    a shared uid. *)
Record store_inv (b : base) : Prop := {
  edge_has_record : forall I edge,
    I ∈ all_uids b -> edge ∈ read_imports b I -> reverse_record b I edge;
  record_has_edge : forall Y I t,
    Y ∈ all_uids b -> exports_at b Y ≫= (.!! I) = Some (ExpFile t) ->
    exists v, (Y, v) ∈ read_imports b I /\ opt_truthy v = false;
  sub_record_has_edge : forall Y S fs I t,
    Y ∈ all_uids b -> exports_at b Y ≫= (.!! S) = Some (ExpDir fs) ->
    fs !! I = Some t -> I ≠ DESC_FILE -> (S, Some Y) ∈ read_imports b I;
  shared_has_sub : forall Y S,
    Y ∈ all_uids b -> S ∈ read_shared b Y ->
    exists fs, exports_at b Y ≫= (.!! S) = Some (ExpDir fs);
  sub_is_shared : forall Y S fs,
    Y ∈ all_uids b -> exports_at b Y ≫= (.!! S) = Some (ExpDir fs) ->
    S ∈ read_shared b Y }.

(** No reference to [X] is left in the store. *)
Definition unreferenced (X : str) (b : base) : Prop :=
  b !! X = None
  /\ (forall Y, Y ∈ all_uids b ->
        Forall (clean X) (read_imports b Y)
        /\ (X ∉ read_shared b Y)
        /\ exports_at b Y ≫= (.!! X) = None
        /\ (forall S fs, exports_at b Y ≫= (.!! S) = Some (ExpDir fs) -> fs !! X = None))
  /\ (forall toc, toc ∈ all_toc_paths b -> X ∉ _read_lines (file_at b (PTop toc))).

Lemma remove_entity_run b X :
  X ∈ all_uids b ->
  exists b1 b2 b3 b4,
    remove_entity X (Some b) = (Ok tt, Some (delete X b4))
    /\ (same_dirs b b1 /\ same_exports b b1 /\ same_shared b b1
        /\ read_imports b1 X = read_imports b X
        /\ (forall Y, Y ∈ all_uids b -> Y ≠ X -> Forall (clean X) (read_imports b1 Y)))
    /\ (same_dirs b1 b2 /\ same_imports b1 b2 /\ same_shared b1 b2 /\ shrinks b1 b2
        /\ (forall edge, edge ∈ read_imports b1 X -> record_absent X edge b2))
    /\ (same_dirs b2 b3 /\ same_imports b2 b3 /\ shrinks b2 b3
        /\ (forall Y, Y ∈ all_uids b -> Y ≠ X ->
              (X ∉ read_shared b3 Y)
              /\ (X ∈ read_shared b2 Y ->
                  forall fs, exports_at b3 Y ≫= (.!! X) ≠ Some (ExpDir fs))))
    /\ ((forall Y, dir_at b4 Y = dir_at b3 Y)
        /\ (forall k, is_a_file b4 k <-> is_a_file b3 k)
        /\ (forall toc, toc ∈ all_toc_paths b3 -> X ∉ _read_lines (file_at b4 (PTop toc)))).
Proof.
  intros HX.
  destruct (strip_mentions_loop X b) as (b1 & Hrun1 & Hd1 & Hf1 & He1 & Hs1 & Hi1 & Hc1).
  destruct (drop_reverse_loop X (read_imports b1 X) b1)
    as (b2 & Hrun2 & Hd2 & Hf2 & Hi2 & Hs2 & Hsh2 & Hab2).
  destruct (unshare_loop X b b2) as (b3 & Hrun3 & Hd3 & Hf3 & Hi3 & Hsh3 & Hu3).
  { by eapply same_dirs_trans. }
  destruct (toc_loop X b3) as (b4 & Hrun4 & Hd4 & Hf4 & Ht4).
  exists b1, b2, b3, b4. split; [|by split_and!].
  unfold remove_entity, ensure_init.
  rewrite require_entity_present by (by apply all_uids_exist).
  rewrite bind_get. unfold bind at 1. rewrite Hrun1.
  rewrite bind_get. unfold bind at 1. rewrite Hrun2.
  unfold bind at 1. rewrite Hrun3.
  rewrite bind_get. unfold bind at 1. rewrite Hrun4.
  rewrite rmtree_entity; [done|].
  rewrite Hd4. apply Hd3, Hd2, Hd1. by apply (elem_of_all_uids_dir_at b X).
Qed.

Lemma read_imports_dir_eq b b' Y :
  dir_at b' Y = dir_at b Y -> read_imports b' Y = read_imports b Y.
Proof. intros H. by rewrite !read_imports_dir, H. Qed.

Lemma read_shared_dir_eq b b' Y :
  dir_at b' Y = dir_at b Y -> read_shared b' Y = read_shared b Y.
Proof. intros H. by rewrite !read_shared_dir, H. Qed.

Lemma exports_at_dir_eq b b' Y :
  dir_at b' Y = dir_at b Y -> exports_at b' Y = exports_at b Y.
Proof. intros H. unfold exports_at. by rewrite H. Qed.

(** C2. In a store that satisfies the invariants 1 and 2 of the data model,
    [remove_entity] of an entity [X] succeeds and leaves the other entities
    in place; then [X] has no storage, no import list of an entity mentions
    [X] as imported uid or as exporter, no shared list holds [X], no export
    area holds a record or a sub-collection named [X] or a record named [X]
    in a sub-collection, and no TOC list holds [X]. *)
Theorem cascading_delete_closure b X :
  store_inv b -> X ∈ all_uids b ->
  exists b',
    remove_entity X (Some b) = (Ok tt, Some b')
    /\ (forall Y, Y ∈ all_uids b' <-> Y ∈ all_uids b /\ Y ≠ X)
    /\ unreferenced X b'.
Proof.
  intros Hinv HX.
  destruct (remove_entity_run b X HX) as (b1 & b2 & b3 & b4 & Hrun & H1 & H2 & H3 & H4).
  destruct H1 as (Hd1 & He1 & Hs1 & Hi1 & Hc1).
  destruct H2 as (Hd2 & Hi2 & Hs2 & Hsh2 & Hab2).
  destruct H3 as (Hd3 & Hi3 & Hsh3 & Hu3).
  destruct H4 as (Hd4 & Hf4 & Ht4).
  assert (Hdirs : forall Y, is_Some (dir_at b4 Y) <-> is_Some (dir_at b Y)).
  { intros Y. by rewrite Hd4, (Hd3 Y), (Hd2 Y), (Hd1 Y). }
  assert (Hall : forall Y, Y ∈ all_uids (delete X b4) <-> Y ∈ all_uids b /\ Y ≠ X).
  { intros Y. rewrite !elem_of_all_uids_dir_at. destruct (decide (Y = X)) as [->|Hne].
    - unfold dir_at at 1. rewrite lookup_delete_eq. split.
      + by intros [[? ?] _].
      + by intros [_ ?].
    - rewrite dir_at_delete by done. rewrite Hdirs. tauto. }
  exists (delete X b4). split; [done|]. split; [done|].
  split; [apply lookup_delete_eq|]. split.
  - intros Y HY. apply Hall in HY as [HY HYX].
    assert (Hdir : dir_at (delete X b4) Y = dir_at b3 Y)
      by (by rewrite dir_at_delete, Hd4).
    rewrite (read_imports_dir_eq _ _ _ Hdir), (read_shared_dir_eq _ _ _ Hdir),
      (exports_at_dir_eq _ _ _ Hdir).
    destruct (Hu3 Y HY HYX) as [Hns Hnd].
    destruct (Hsh3 Y) as [Hf3 Hsub3], (Hsh2 Y) as [Hf2 Hsub2].
    split; [|split; [done|split]].
    + rewrite Hi3, Hi2. by apply Hc1.
    + destruct (exports_at b3 Y ≫= (.!! X)) as [[t|fs]|] eqn:E; [| |done].
      * apply Hf3 in E. assert (E1 := Hf2 _ _ E). rewrite He1 in E1.
        destruct (record_has_edge b Hinv Y X t HY E1) as [v [Hv Hvt]].
        rewrite <- Hi1 in Hv. specialize (Hab2 _ Hv).
        unfold record_absent in Hab2. simpl in Hab2. rewrite Hvt in Hab2.
        by destruct (Hab2 t).
      * exfalso. apply (Hnd) with (fs := fs); [|done].
        destruct (Hsub3 _ _ E) as [fs2 [E2 _]].
        destruct (Hsub2 _ _ E2) as [fs1 [E1 _]]. rewrite He1 in E1.
        rewrite Hs2, Hs1. by apply (sub_is_shared b Hinv Y X fs1).
    + intros S fs E. destruct (fs !! X) as [t|] eqn:EX; [|done].
      destruct (Hsub3 _ _ E) as [fs2 [E2 Hin2]].
      destruct (Hsub2 _ _ E2) as [fs1 [E1 Hin1]]. rewrite He1 in E1.
      assert (EX2 := lookup_weaken _ _ _ _ EX Hin2).
      assert (EX1 := lookup_weaken _ _ _ _ EX2 Hin1).
      apply elem_of_all_uids in HX as HXp. destruct HXp as [_ HXp].
      apply elem_of_all_uids in HY as HYp. destruct HYp as [_ HYp].
      apply uid_prefix_truthy in HXp as [_ HXd]. apply uid_prefix_truthy in HYp as [HYt _].
      assert (Hv := sub_record_has_edge b Hinv Y S fs1 X t HY E1 EX1 HXd).
      rewrite <- Hi1 in Hv. specialize (Hab2 _ Hv).
      unfold record_absent in Hab2. simpl in Hab2. rewrite HYt in Hab2.
      by rewrite (Hab2 fs2 E2) in EX2.
  - intros toc Htoc. apply elem_of_all_toc_paths in Htoc as [[t Ht] Hp].
    assert (toc ≠ X) by (intros ->; by rewrite lookup_delete_eq in Ht).
    rewrite lookup_delete_ne in Ht by done.
    assert (Hin : toc ∈ all_toc_paths b3).
    { apply elem_of_all_toc_paths. split; [|done]. apply Hf4. by exists t. }
    specialize (Ht4 toc Hin). unfold file_at, stat in *.
    by rewrite lookup_delete_ne by done.
Qed.

Lemma lookup_listed {A : Type} (m : gmap str A) k x :
  m !! k = Some x -> (k, x) ∈ map_to_list m.
Proof. apply elem_of_map_to_list. Qed.

Lemma exports_listed b Y k x :
  exports_at b Y ≫= (.!! k) = Some x ->
  (k, x) ∈ from_option map_to_list [] (exports_at b Y).
Proof. destruct (exports_at b Y); simpl; [apply lookup_listed|done]. Qed.

(** The cases of a membership in a list that evaluates. *)
Ltac enumerate H :=
  vm_compute in H;
  repeat (apply elem_of_cons in H as [H|H]);
  [..|by apply elem_of_nil in H].

Ltac listed := apply (bool_decide_unpack _); vm_compute; exact I.

(** Three entities: [obj-a] and [obj-b] import each other, [obj-b] imports
    [obj-a] through [obj-c] as well, which shares it; a TOC lists them. *)
Definition linked : base :=
  <[lit "obj-a" :=
      Dir (Entity None (Some (lit "obj-b" ++ [LF])) None
             (Some (<[lit "obj-b" := ExpFile (lit "uses")]> ∅)))]>
  (<[lit "obj-b" :=
      Dir (Entity None (Some (lit "obj-a" ++ [LF] ++ lit "obj-a via=obj-c" ++ [LF])) None
             (Some (<[lit "obj-a" := ExpFile (lit "needs")]> ∅)))]>
  (<[lit "obj-c" :=
      Dir (Entity None None (Some (lit "obj-a" ++ [LF]))
             (Some (<[lit "obj-a" :=
                        ExpDir (<[DESC_FILE := lit "obj-a"]>
                                  (<[lit "obj-b" := lit "through"]> ∅))]> ∅)))]>
  (<[lit "TOC" := File (lit "obj-a" ++ [LF] ++ lit "obj-b" ++ [LF] ++ lit "obj-c" ++ [LF])]>
     ∅))).

Lemma linked_inv : store_inv linked.
Proof.
  constructor.
  - intros I edge HI He. enumerate HI; subst I; enumerate He; subst edge;
      vm_compute; repeat eexists.
  - intros Y I t HY E. apply exports_listed in E.
    enumerate HY; subst Y; enumerate E; try discriminate;
      injection E as -> _; exists None; (split; [listed|done]).
  - intros Y S fs I t HY E Hfs HI. apply exports_listed in E.
    enumerate HY; subst Y; enumerate E; try discriminate.
    injection E as -> ->. apply lookup_listed in Hfs.
    enumerate Hfs; injection Hfs as -> _; [by destruct HI|listed].
  - intros Y S HY HS. enumerate HY; subst Y; enumerate HS; subst S.
    eexists. reflexivity.
  - intros Y S fs HY E. apply exports_listed in E.
    enumerate HY; subst Y; enumerate E; try discriminate.
    injection E as -> _. listed.
Qed.

Lemma cascading_delete_closure_witness :
  exists b',
    remove_entity (lit "obj-a") (Some linked) = (Ok tt, Some b')
    /\ (forall Y, Y ∈ all_uids b' <-> Y ∈ all_uids linked /\ Y ≠ lit "obj-a")
    /\ unreferenced (lit "obj-a") b'.
Proof.
  apply (cascading_delete_closure linked (lit "obj-a")); [apply linked_inv|listed].
Defined.

(** What [remove_entity] leaves of [linked]. *)
Example remove_entity_linked :
  remove_entity (lit "obj-a") (Some linked)
  = (Ok tt,
     Some (<[lit "obj-b" := Dir (Entity None (Some []) None (Some ∅))]>
          (<[lit "obj-c" := Dir (Entity None None (Some []) (Some ∅))]>
          (<[lit "TOC" := File (lit "obj-b" ++ [LF] ++ lit "obj-c" ++ [LF])]> ∅)))).
Proof. vm_compute. reflexivity. Qed.

End CascadingDelete.

(** ** Shortest paths (C6) *)

Section PathOrder.


Lemma str_leb_cons x a y b :
  str_leb (x :: a) (y :: b) = true
  <-> nat_of_ascii x < nat_of_ascii y \/ (x = y /\ str_leb a b = true).
Proof.
  simpl. destruct (Nat.ltb_spec (nat_of_ascii x) (nat_of_ascii y)) as [Hlt|Hge].
  - split; [by left|done].
  - destruct (Nat.eqb_spec (nat_of_ascii x) (nat_of_ascii y)) as [Heq|Hne].
    + assert (x = y) by (by rewrite <- (ascii_nat_embedding x), Heq, ascii_nat_embedding).
      split; [by right|]. intros [?|[_ ?]]; [lia|done].
    + split; [done|]. intros [?|[-> _]]; [lia|done].
Qed.

Global Instance str_le_trans : Transitive str_le.
Proof.
  unfold str_le. intros a. induction a as [|x a IH]; intros [|y b] [|z c]; try done.
  rewrite !str_leb_cons. intros [H1|[-> H1]] [H2|[-> H2]].
  - left. lia.
  - by left.
  - by left.
  - right. split; [done|]. by apply (IH b).
Qed.

Global Instance str_le_total : Total str_le.
Proof.
  unfold str_le. intros a. induction a as [|x a IH]; intros [|y b]; try (by left); try (by right).
  rewrite !str_leb_cons.
  destruct (Nat.lt_total (nat_of_ascii x) (nat_of_ascii y)) as [H|[H|H]].
  - left. by left.
  - assert (x = y) by (by rewrite <- (ascii_nat_embedding x), H, ascii_nat_embedding).
    subst. destruct (IH b); [left|right]; by right.
  - right. by left.
Qed.

Lemma str_le_antisym a b : str_le a b -> str_le b a -> a = b.
Proof.
  unfold str_le. revert b. induction a as [|x a IH]; intros [|y b]; try done.
  rewrite !str_leb_cons. intros [H1|[-> H1]] [H2|[E H2]]; try lia.
  - subst. lia.
  - f_equal. by apply IH.
Qed.

(** The order of Python on lists of strings, as [sorted] and the comparison
    of paths would use it. *)
Fixpoint lex_le (p q : list str) : Prop :=
  match p, q with
  | [], _ => True
  | _ :: _, [] => False
  | x :: p', y :: q' => (str_le x y /\ x ≠ y) \/ (x = y /\ lex_le p' q')
  end.




Lemma lex_le_antisym p q : lex_le p q -> lex_le q p -> length p = length q -> p = q.
Proof.
  revert q. induction p as [|x p IH]; intros [|y q]; try done. simpl.
  intros [[H1 N1]|[-> H1]] [[H2 N2]|[E H2]] Hl.
  - destruct N1. by apply str_le_antisym.
  - by subst.
  - done.
  - f_equal. apply IH; [done|done|lia].
Qed.










End PathOrder.



Section ShortestPath.

Context (b : base) (from_uid to_uid : str).

(** A neighbour the loop puts in the queue. *)
Definition fresh (visited : gset str) (y : str) : Prop :=
  (y ∉ visited) /\ entity_exists b y = true.

Local Instance fresh_dec visited y : Decision (fresh visited y).
Proof. unfold fresh. apply _. Defined.





















End ShortestPath.

Section Neighbours.







End Neighbours.




(** Two shortest paths from [obj-a] to [obj-d]: the one through the smaller
    uid is returned. *)
Example get_path_tie :
  get_path (lit "obj-a") (lit "obj-d")
    (Some (<[lit "obj-a" :=
               Dir (Entity None (Some (lit "obj-c" ++ [LF] ++ lit "obj-b" ++ [LF])) None None)]>
          (<[lit "obj-b" := Dir (Entity None (Some (lit "obj-d" ++ [LF])) None None)]>
          (<[lit "obj-c" := Dir (Entity None (Some (lit "obj-d" ++ [LF])) None None)]>
          (<[lit "obj-d" := Dir (Entity None None None None)]> ∅)))))
  = Some (Ok (Some [lit "obj-a"; lit "obj-b"; lit "obj-d"])).
Proof. vm_compute. reflexivity. Qed.
